(** * A Slack answer bot: the streaming handler, the turn and the Lambda entry

    Shallow embedding of [src/app.py].

    Conventions of the embedding.
    - [time.time()] returns a float and [update_count / 10] is a float
      division; both are idealised as exact rationals ([Q]).
    - A Python [str] is a [string]; the characters the program inspects
      ([<], [@], [>] and the line feed) are ASCII, so working on bytes of
      the UTF-8 encoding agrees with working on code points.
    - A Python [dict] with string keys is a [gmap string _]; subscripting a
      missing key raises [KeyError].
    - What the outside world answers (the clock, whether a Slack call
      raises, what the chains return) is an explicit argument. *)

From Stdlib Require Import QArith ZArith Ascii String List Sorted Lia Lqa.
From stdpp Require Import gmap strings list.

Local Open Scope Z_scope.
Local Open Scope string_scope.
Local Open Scope list_scope.

(** ** Small Python prelude *)

(** The line feed of the literals ["\n\nTyping..."]. *)
Definition nl : string := String (ascii_of_nat 10) "".

(** [x > y] on the idealised floats. *)
Definition Qgtb (x y : Q) : bool := negb (Qle_bool x y).

(** How a call ends: it returns, or an exception leaves it. *)
Inductive completion : Type :=
| Returned
| Raised.

(** ** The streaming callback handler (lines 20-67) *)

Definition CHAT_UPDATE_INTERVAL_SEC : Z := 1.

(** The text appended to every partial publish (line 54). *)
Definition typing_marker : string := nl +:+ nl +:+ "Typing...".

(** One call of [app.client.chat_update(channel=, ts=, text=)]. *)
Record ChatUpdate : Type := mkChatUpdate {
  cu_channel : string;
  cu_ts : string;
  cu_text : string
}.

(** The attributes set in the class body (lines 37-38). The body runs once,
    when the module is imported: [last_send_time] holds the clock reading of
    that moment and is shared by every instance that has not assigned its
    own. *)
Record ClassAttrs : Type := mkClassAttrs {
  cls_last_send_time : Q;
  cls_message : string
}.

Definition class_body (import_time : Q) : ClassAttrs :=
  {| cls_last_send_time := import_time; cls_message := "" |}.

(** The instance dictionary. [channel], [ts], [interval] and [update_count]
    are assigned by [__init__]; [message] and [last_send_time] are absent
    until a method assigns them, and reading them then falls back to the
    class attribute. *)
Record Handler : Type := mkHandler {
  channel : string;
  ts : string;
  interval : Z;
  update_count : Z;
  message : option string;
  last_send_time : option Q
}.

Definition __init__ (channel ts : string) : Handler :=
  {| channel := channel;
     ts := ts;
     interval := CHAT_UPDATE_INTERVAL_SEC;
     update_count := 0;
     message := None;
     last_send_time := None |}.

(** Attribute reads [self.message] and [self.last_send_time]. *)
Definition get_message (cls : ClassAttrs) (self : Handler) : string :=
  default (cls_message cls) (message self).

Definition get_last_send_time (cls : ClassAttrs) (self : Handler) : Q :=
  default (cls_last_send_time cls) (last_send_time self).

Definition set_message (self : Handler) (m : string) : Handler :=
  {| channel := channel self; ts := ts self; interval := interval self;
     update_count := update_count self;
     message := Some m; last_send_time := last_send_time self |}.

Definition set_last_send_time (self : Handler) (t : Q) : Handler :=
  {| channel := channel self; ts := ts self; interval := interval self;
     update_count := update_count self;
     message := message self; last_send_time := Some t |}.

Definition set_update_count (self : Handler) (n : Z) : Handler :=
  {| channel := channel self; ts := ts self; interval := interval self;
     update_count := n;
     message := message self; last_send_time := last_send_time self |}.

Definition set_interval (self : Handler) (i : Z) : Handler :=
  {| channel := channel self; ts := ts self; interval := i;
     update_count := update_count self;
     message := message self; last_send_time := last_send_time self |}.

(** The gate of line 50: [now - self.last_send_time > self.interval]. *)
Definition gate_open (cls : ClassAttrs) (self : Handler) (now : Q) : bool :=
  Qgtb (now - get_last_send_time cls self) (inject_Z (interval self)).

(** The test of line 59: [self.update_count / 10 > self.interval]. *)
Definition backoff_due (self : Handler) : bool :=
  Qgtb (inject_Z (update_count self) / 10) (inject_Z (interval self)).

(** What one callback leaves behind: the handler object as mutated, the
    Slack calls it issued, and how it ended. *)
Record Outcome : Type := mkOutcome {
  self_after : Handler;
  issued : list ChatUpdate;
  ended : completion
}.

(** Whether a token callback published and came back. *)
Definition published (o : Outcome) : bool :=
  match issued o, ended o with
  | _ :: _, Returned => true
  | _, _ => false
  end.

(** [on_llm_new_token(self, token)]. [now] is what [time.time()] returns
    on line 49, [edit_raises] tells whether [chat_update], if it is
    called, raises. An exception leaves the method at line 51, after the
    assignment of line 48 and before those of lines 56-60. *)
Definition on_llm_new_token (cls : ClassAttrs) (self : Handler)
    (token : string) (now : Q) (edit_raises : bool) : Outcome :=
  let self := set_message self (get_message cls self +:+ token) in
  if gate_open cls self now then
    let call := {| cu_channel := channel self;
                   cu_ts := ts self;
                   cu_text := get_message cls self +:+ typing_marker |} in
    if edit_raises then
      {| self_after := self; issued := [call]; ended := Raised |}
    else
      let self := set_last_send_time self now in
      let self := set_update_count self (update_count self + 1) in
      let self :=
        if backoff_due self then set_interval self (interval self * 2)
        else self in
      {| self_after := self; issued := [call]; ended := Returned |}
  else
    {| self_after := self; issued := []; ended := Returned |}.

(** [on_llm_end(self, response)]: one unconditional call (lines 62-67). *)
Definition on_llm_end (cls : ClassAttrs) (self : Handler)
    (edit_raises : bool) : Outcome :=
  let call := {| cu_channel := channel self;
                 cu_ts := ts self;
                 cu_text := get_message cls self |} in
  {| self_after := self;
     issued := [call];
     ended := if edit_raises then Raised else Returned |}.

(** ** One streaming session *)

(** What the outside world supplies while one token is handled. *)
Record TokenEvent : Type := mkTokenEvent {
  te_token : string;
  te_now : Q;
  te_edit_raises : bool
}.

Inductive callback : Type :=
| OnToken (e : TokenEvent)
| OnEnd (edit_raises : bool).

Definition fire (cls : ClassAttrs) (self : Handler) (cb : callback) : Outcome :=
  match cb with
  | OnToken e =>
      on_llm_new_token cls self (te_token e) (te_now e) (te_edit_raises e)
  | OnEnd r => on_llm_end cls self r
  end.

(** Modelled from the spec: the loop that drives the handler is the
    callback manager of the LLM framework, which is not under [src/]. The
    spec (4.1, 5 and 7) has it fire the callbacks one after the other on one
    thread, and has an error of the edit call logged and ignored: the
    exception that leaves a callback is dropped and the next callback
    fires on the same, already mutated, object. The result is the handler
    at the end and every Slack call issued, oldest first. *)
Fixpoint dispatch (cls : ClassAttrs) (self : Handler) (cbs : list callback)
    : Handler * list ChatUpdate :=
  match cbs with
  | [] => (self, [])
  | cb :: rest =>
      let o := fire cls self cb in
      let '(self', calls) := dispatch cls (self_after o) rest in
      (self', issued o ++ calls)
  end.

(** The callbacks of one generation: a token callback per token, in
    arrival order, then the end callback. *)
Definition session (tokens : list TokenEvent) (end_raises : bool)
    : list callback :=
  map OnToken tokens ++ [OnEnd end_raises].

(** The tokens of a stream, concatenated in arrival order. *)
Definition full_text (tokens : list TokenEvent) : string :=
  String.concat "" (map te_token tokens).

(** [b] is [a] with more text after it. *)
Definition extends (a b : string) : Prop := exists more, b = a +:+ more.

(** *** The subtraction of floats

    [now - self.last_send_time] subtracts two floats, and that rounds. The
    definitions above take the difference exact. The ones below are the
    same code with the subtraction as a parameter [sub]: the subtraction of
    floats is one instance, the exact one ([Qminus]) another. The
    comparison of the difference with [self.interval], an [int], is exact
    in Python. *)

Definition gate_open_with (sub : Q -> Q -> Q) (cls : ClassAttrs)
    (self : Handler) (now : Q) : bool :=
  Qgtb (sub now (get_last_send_time cls self)) (inject_Z (interval self)).

(** The condition of line 50 on the inputs of a token callback: whether the
    difference the code computes exceeds [self.interval]. *)
Definition elapsed_exceeds (sub : Q -> Q -> Q) (cls : ClassAttrs)
    (self : Handler) (now : Q) :
    {(inject_Z (interval self) < sub now (get_last_send_time cls self))%Q}
    + {(sub now (get_last_send_time cls self) <= inject_Z (interval self))%Q} :=
  Qlt_le_dec (inject_Z (interval self)) (sub now (get_last_send_time cls self)).

Definition on_llm_new_token_with (sub : Q -> Q -> Q) (cls : ClassAttrs)
    (self : Handler) (token : string) (now : Q) (edit_raises : bool)
    : Outcome :=
  let self := set_message self (get_message cls self +:+ token) in
  if gate_open_with sub cls self now then
    let call := {| cu_channel := channel self;
                   cu_ts := ts self;
                   cu_text := get_message cls self +:+ typing_marker |} in
    if edit_raises then
      {| self_after := self; issued := [call]; ended := Raised |}
    else
      let self := set_last_send_time self now in
      let self := set_update_count self (update_count self + 1) in
      let self :=
        if backoff_due self then set_interval self (interval self * 2)
        else self in
      {| self_after := self; issued := [call]; ended := Returned |}
  else
    {| self_after := self; issued := []; ended := Returned |}.

Definition fire_with (sub : Q -> Q -> Q) (cls : ClassAttrs) (self : Handler)
    (cb : callback) : Outcome :=
  match cb with
  | OnToken e =>
      on_llm_new_token_with sub cls self (te_token e) (te_now e)
        (te_edit_raises e)
  | OnEnd r => on_llm_end cls self r
  end.

(** Modelled from the spec: [dispatch], with the subtraction a
    parameter. *)
Fixpoint dispatch_with (sub : Q -> Q -> Q) (cls : ClassAttrs) (self : Handler)
    (cbs : list callback) : Handler * list ChatUpdate :=
  match cbs with
  | [] => (self, [])
  | cb :: rest =>
      let o := fire_with sub cls self cb in
      let '(self', calls) := dispatch_with sub cls (self_after o) rest in
      (self', issued o ++ calls)
  end.

(** ** Stripping the mention (line 79) *)

Definition is_nl (c : ascii) : bool := Ascii.eqb c (ascii_of_nat 10).
Definition is_gt (c : ascii) : bool := Ascii.eqb c ">"%char.

(** [.*>] tried at the head of [s]: the star takes the rest of the line
    (the dot does not match a line feed) and gives characters back until
    [>] follows. The result is the number of characters the two consume,
    that is, the length of the longest prefix of [s] that stays on the line
    and ends in [>]. *)
Fixpoint dot_star_gt (s : list ascii) : option nat :=
  match s with
  | [] => None
  | c :: r =>
      if is_nl c then None
      else match dot_star_gt r with
           | Some n => Some (S n)
           | None => if is_gt c then Some 1%nat else None
           end
  end.

(** The pattern [<@.*>] tried at the head of [s]: length of the match. *)
Definition match_at (s : list ascii) : option nat :=
  match s with
  | c1 :: c2 :: r =>
      if Ascii.eqb c1 "<"%char && Ascii.eqb c2 "@"%char
      then option_map (fun n => S (S n)) (dot_star_gt r)
      else None
  | _ => None
  end.

(** [re.sub("<@.*>", "", s)]: scan from the left; where the pattern matches,
    drop the match and go on behind it, elsewhere keep the character.
    [skip] counts the characters of a match still to be dropped. *)
Fixpoint sub_from (skip : nat) (s : list ascii) : list ascii :=
  match s with
  | [] => []
  | c :: r =>
      match skip with
      | S k => sub_from k r
      | O =>
          match match_at s with
          | Some n => sub_from (Nat.pred n) r
          | None => c :: sub_from 0 r
          end
      end
  end.

Definition re_sub_mention (text : string) : string :=
  string_of_list_ascii (sub_from 0 (list_ascii_of_string text)).

(** *** The removal as prose describes it *)

(** No character of [s] is a line feed. *)
Definition on_one_line (s : list ascii) : Prop :=
  Forall (fun c => is_nl c = false) s.

(** Index of the first ["<@"]. *)
Fixpoint find_mention (s : list ascii) : option nat :=
  match s with
  | [] => None
  | c1 :: r =>
      match r with
      | c2 :: _ =>
          if Ascii.eqb c1 "<"%char && Ascii.eqb c2 "@"%char then Some 0%nat
          else option_map S (find_mention r)
      | [] => None
      end
  end.

(** Index of the last [">"]. *)
Fixpoint last_gt (s : list ascii) : option nat :=
  match s with
  | [] => None
  | c :: r =>
      match last_gt r with
      | Some n => Some (S n)
      | None => if is_gt c then Some 0%nat else None
      end
  end.

(** Remove the one span from the first ["<@"] to the last [">"], when that
    [">"] closes the ["<@"]. *)
Definition strip_span (s : list ascii) : list ascii :=
  match find_mention s, last_gt s with
  | Some p, Some q =>
      if (p + 2 <=? q)%nat then firstn p s ++ skipn (S q) s else s
  | _, _ => s
  end.

(** The claim's words, on the whole text. *)
Definition strip_whole_text (text : string) : string :=
  string_of_list_ascii (strip_span (list_ascii_of_string text)).

(** [s.split("\n")] and ["\n".join(ls)]. *)
Fixpoint lines (s : list ascii) : list (list ascii) :=
  match s with
  | [] => [[]]
  | c :: r =>
      if is_nl c then [] :: lines r
      else match lines r with
           | l :: ls => (c :: l) :: ls
           | [] => [[c]]
           end
  end.

Fixpoint unlines (ls : list (list ascii)) : list ascii :=
  match ls with
  | [] => []
  | l :: rest =>
      match rest with
      | [] => l
      | _ :: _ => l ++ ascii_of_nat 10 :: unlines rest
      end
  end.

(** The span removed on every line by itself. *)
Definition strip_each_line (text : string) : string :=
  string_of_list_ascii
    (unlines (map strip_span (lines (list_ascii_of_string text)))).

(** ** The world a turn runs in *)

(** What a chain hands on: a string, or the documents of a retriever. *)
Inductive pyval : Type :=
| PStr (s : string)
| PDocs (docs : list string).

Inductive role : Type :=
| Human
| AI.

(** One entry of a transcript. *)
Record Message : Type := mkMessage {
  msg_role : role;
  msg_content : pyval
}.

Inductive exn : Type :=
| KeyError (key : string)
| ValueError (what : string)
| AttributeError (name : string)
| ExternalError (who : string).

Inductive result (A : Type) : Type :=
| Ok (a : A)
| Raise (e : exn).

Arguments Ok {A} a.
Arguments Raise {A} e.

(** Every call that leaves the process, in the order it is made. *)
Inductive effect : Type :=
| ELog (line : string)
| ESay (text thread_ts : string)
| EChatUpdate (call : ChatUpdate)
| EHistoryRead (key : string)
| EHistoryAdd (key : string) (m : Message)
| EGenerate (input : string) (chat_history : list Message).

(** The trace of effects, oldest first, and the Momento cache: a transcript
    per key. Expiry of a key is the cache's business and is not modelled. *)
Record World : Type := mkWorld {
  trace : list effect;
  momento : gmap string (list Message)
}.

(** What the streaming LLM does with one request: the tokens it streams,
    and then either the end of the stream ([Some r], with [r] telling
    whether the edit call of [on_llm_end] raises) or a failure of the
    generation ([None]). *)
Record Generation : Type := mkGeneration {
  g_tokens : list TokenEvent;
  g_end : option bool
}.

(** The answers of the collaborators of one turn: the process environment,
    the builtin [int], the clock reading of the moment the class body ran,
    the [ts] of the message [say] posts ([None] when [say] raises), and the
    streaming LLM. *)
Record Env : Type := mkEnv {
  environ : gmap string string;
  py_int : string -> option Z;
  imported_at : Q;
  say_ts : option string;
  qa_llm : string -> list Message -> Generation
}.

(** A computation that reads and writes the world and may raise. *)
Definition M (A : Type) : Type := World -> result A * World.

Definition ret {A : Type} (a : A) : M A := fun w => (Ok a, w).

Definition raise {A : Type} (e : exn) : M A := fun w => (Raise e, w).

Definition bind {A B : Type} (m : M A) (k : A -> M B) : M B :=
  fun w =>
    match m w with
    | (Ok a, w') => k a w'
    | (Raise e, w') => (Raise e, w')
    end.

Notation "x <- m ;; k" := (bind m (fun x => k))
  (at level 100, m at next level, right associativity).
Notation "m ;;; k" := (bind m (fun _ => k))
  (at level 100, right associativity).

Definition emit (e : effect) : M unit :=
  fun w => (Ok tt, {| trace := trace w ++ [e]; momento := momento w |}).

Definition emit_all (es : list effect) : M unit :=
  fun w => (Ok tt, {| trace := trace w ++ es; momento := momento w |}).

(** [d[key]]. *)
Definition subscript {V : Type} (d : gmap string V) (key : string) : M V :=
  match d !! key with
  | Some v => ret v
  | None => raise (KeyError key)
  end.

(** [history.messages] of the history object made for [key]. *)
Definition history_messages (key : string) : M (list Message) :=
  fun w =>
    (Ok (default [] (momento w !! key)),
     {| trace := trace w ++ [EHistoryRead key]; momento := momento w |}).

(** [history.add_user_message] and [history.add_ai_message]: one entry
    appended to the transcript of [key]. *)
Definition history_add (key : string) (m : Message) : M unit :=
  fun w =>
    (Ok tt,
     {| trace := trace w ++ [EHistoryAdd key m];
        momento := <[key := default [] (momento w !! key) ++ [m]]> (momento w) |}).

(** [say(text, thread_ts=thread_ts)["ts"]]. *)
Definition say (env : Env) (text thread_ts : string) : M string :=
  emit (ESay text thread_ts) ;;;
  match say_ts env with
  | Some t => ret t
  | None => raise (ExternalError "say")
  end.

(** [int(s)]. *)
Definition int (env : Env) (s : string) : M Z :=
  match py_int env s with
  | Some z => ret z
  | None => raise (ValueError s)
  end.

(** A value of the dict handed to [invoke] (line 131). *)
Inductive chain_arg : Type :=
| ArgText (s : string)
| ArgMessages (ms : list Message).

(** [qa_prompt.invoke(d)], the prompt of lines 111-117: it has the
    variables [context] (in the system message), [chat_history] (the
    placeholder) and [input], and each must be a key of [d]; a variable [d]
    lacks is a [KeyError]. The result is the input text and the history,
    the parts of the prompt the effects keep track of. *)
Definition qa_prompt (d : gmap string chain_arg) : M (string * list Message) :=
  _context <- subscript d "context" ;;
  chat_history <- subscript d "chat_history" ;;
  input <- subscript d "input" ;;
  match input, chat_history with
  | ArgText i, ArgMessages h => ret (i, h)
  | _, _ => raise (ValueError "prompt")
  end.

(** [qa_chain.invoke(d)] with [qa_chain = qa_prompt | qa_llm |
    StrOutputParser()] (line 124): the prompt is formatted first; then the
    streaming LLM drives [callback] and the parser returns the generated
    text, the streamed tokens put together. *)
Definition qa_chain (env : Env) (callback : Handler)
    (d : gmap string chain_arg) : M string :=
  prompt <- qa_prompt d ;;
  let '(input, chat_history) := prompt in
  emit (EGenerate input chat_history) ;;;
  let g := qa_llm env input chat_history in
  match g_end g with
  | Some r =>
      emit_all (map EChatUpdate
                  (snd (dispatch (class_body (imported_at env)) callback
                          (session (g_tokens g) r)))) ;;;
      ret (full_text (g_tokens g))
  | None =>
      emit_all (map EChatUpdate
                  (snd (dispatch (class_body (imported_at env)) callback
                          (map OnToken (g_tokens g))))) ;;;
      raise (ExternalError "qa_llm")
  end.

(** [rephrase_chain.invoke(x)]: the chain that
    [create_history_aware_retriever] builds (line 108) starts by reading
    [x.get("chat_history", False)]. What the sequence hands it is the output
    of the parser, a [str], which has no [get]. *)
Definition rephrase (input : pyval) : M pyval :=
  raise (AttributeError "get").

(** Lines 82-84: the key of the transcript. *)
Definition id_ts (event : gmap string string) : M string :=
  id_ts <- subscript event "ts" ;;
  match event !! "thread_ts" with
  | Some t => ret t
  | None => ret id_ts
  end.

(** [handle_mention(event, say)], lines 76-135. The clients, prompts and
    chains are built without a call to the outside; what is kept of their
    construction are the reads of [os.environ]. The chain of lines 126-128
    is [qa_chain | rephrase_chain]: the output of the first is the input of
    the second, and the output of the second is the value of [invoke]. The
    dict of line 131 has the keys [input] and [chat_history]. *)
Definition handle_mention (env : Env) (event : gmap string string) : M unit :=
  channel <- subscript event "channel" ;;
  thread_ts <- subscript event "ts" ;;
  text <- subscript event "text" ;;
  let message := re_sub_mention text in
  id_ts <- id_ts event ;;
  ts <- say env (nl +:+ nl +:+ "Typing...") thread_ts ;;
  _cache <- subscript (environ env) "MOMENTO_CACHE" ;;
  ttl <- subscript (environ env) "MOMENTO_TTL" ;;
  _hours <- int env ttl ;;
  _index_name <- subscript (environ env) "PINECONE_INDEX" ;;
  _model <- subscript (environ env) "OPENAI_API_MODEL" ;;
  _temperature <- subscript (environ env) "OPENAI_API_TEMPERATURE" ;;
  let callback := __init__ channel ts in
  chat_history <- history_messages id_ts ;;
  let d : gmap string chain_arg :=
    <["input" := ArgText message]>
      (<["chat_history" := ArgMessages chat_history]> ∅) in
  answer <- qa_chain env callback d ;;
  ai_message <- rephrase (PStr answer) ;;
  history_add id_ts {| msg_role := Human; msg_content := PStr message |} ;;;
  history_add id_ts {| msg_role := AI; msg_content := ai_message |}.

(** ** The Lambda entry point (lines 141-150) *)

(** The request as Lambda hands it over: [headers] is [event["headers"]],
    absent when the key is; [request] stands for the rest. *)
Record LambdaEvent : Type := mkLambdaEvent {
  headers : option (gmap string string);
  request : string
}.

(** What the entry point returns: the bare [200] of line 145, or the
    response the adapter built. *)
Inductive lambda_return : Type :=
| RInt (n : Z)
| RResponse (status : Z) (body : string).

(** [handler(event, context)]. [slack_handle] is
    [SlackRequestHandler(app=app).handle], which routes the request to the
    listeners of [app]. *)
Definition handler (slack_handle : LambdaEvent -> M lambda_return)
    (event : LambdaEvent) : M lambda_return :=
  emit (ELog "handler called") ;;;
  header <- match headers event with
            | Some h => ret h
            | None => raise (KeyError "headers")
            end ;;
  match header !! "x-slack-retry-num" with
  | Some _ => ret (RInt 200)
  | None => slack_handle event
  end.

(** The effects the retry rule is about: posting, editing, generating,
    retrieving, reading or writing the history. A log line is none. *)
Definition is_side_effect (e : effect) : bool :=
  match e with
  | ELog _ => false
  | _ => true
  end.

(** The transcript key an effect names, if it is one on the history. *)
Definition history_key (e : effect) : option string :=
  match e with
  | EHistoryRead k => Some k
  | EHistoryAdd k _ => Some k
  | _ => None
  end.

(** [m] only extends the trace, and every history effect it adds names
    [key]. *)
Definition keeps_key {A : Type} (key : string) (m : M A) : Prop :=
  forall w, exists new,
    trace (snd (m w)) = trace w ++ new
    /\ Forall (fun e => forall k, history_key e = Some k -> k = key) new.


(** ** Concrete worlds *)

Definition empty_world : World := {| trace := []; momento := ∅ |}.

(** A configured deployment; its model, when asked, streams [Hel], [lo]
    within the first second after the import. *)
Definition turn_env : Env :=
  {| environ :=
       list_to_map
         [("MOMENTO_CACHE", "cache"); ("MOMENTO_TTL", "1");
          ("PINECONE_INDEX", "index"); ("OPENAI_API_MODEL", "model");
          ("OPENAI_API_TEMPERATURE", "0")];
     py_int := fun _ => Some 1;
     imported_at := 0;
     say_ts := Some "200.1";
     qa_llm := fun _ _ =>
       {| g_tokens := [mkTokenEvent "Hel" (1 # 2) false;
                       mkTokenEvent "lo" (3 # 5) false];
          g_end := Some false |} |}.

(** A fresh mention, and a mention inside the thread rooted at [90.0]. *)
Definition turn_event : gmap string string :=
  list_to_map [("channel", "C1"); ("ts", "100.0"); ("text", "<@U1> hi")].

Definition thread_event : gmap string string :=
  list_to_map [("channel", "C1"); ("ts", "100.0"); ("thread_ts", "90.0");
               ("text", "<@U1> hi")].

(** A redelivered request, and an adapter that would post if it ran. *)
Definition retried_request : LambdaEvent :=
  {| headers := Some (list_to_map [("x-slack-retry-num", "1")]);
     request := "{}" |}.

Definition posting_adapter (event : LambdaEvent) : M lambda_return :=
  emit (ESay "posted" "0") ;;; ret (RResponse 200 "").

(** A stream whose first edit call raises. *)
Definition failing_token : TokenEvent := mkTokenEvent "Hi" 5 true.
Definition later_tokens : list TokenEvent :=
  [mkTokenEvent " there" 6 false; mkTokenEvent "!" 7 false].

(** A text of two lines with a mention on each. *)
Definition two_line_text : string := "<@U1> a" +:+ nl +:+ "<@U2> b".

(** ** What a computation does to the world *)

(** [m] only extends the trace, and every effect it adds satisfies [P]. *)
Definition emits {A : Type} (P : effect -> Prop) (m : M A) : Prop :=
  forall w, exists new,
    trace (snd (m w)) = trace w ++ new /\ Forall P new.

(** The first effect of [m] is [e]; every later one satisfies [P]. *)
Definition starts_with {A : Type} (e : effect) (P : effect -> Prop)
    (m : M A) : Prop :=
  forall w, exists rest,
    trace (snd (m w)) = trace w ++ e :: rest /\ Forall P rest.

(** [m] raises, whatever the world. *)
Definition never_returns {A : Type} (m : M A) : Prop :=
  forall w a w', m w <> (Ok a, w').

(** [m] never writes the cache. *)
Definition pure_on_cache {A : Type} (m : M A) : Prop :=
  forall w, momento (snd (m w)) = momento w.

(** When [m] raises, the cache is as it was. *)
Definition fails_clean {A : Type} (m : M A) : Prop :=
  forall w e w', m w = (Raise e, w') -> momento w' = momento w.

(** [m] leaves every transcript but the one of [key] as it was. *)
Definition touches_only {A : Type} (key : string) (m : M A) : Prop :=
  forall w k, k <> key -> momento (snd (m w)) !! k = momento w !! k.

(** A later effect of the turn for [channel]: no further post, and every
    edit call goes to [channel] and to the message [say] posted. *)
Definition edits_placeholder (env : Env) (channel : string) (e : effect)
    : Prop :=
  match e with
  | ESay _ _ => False
  | EChatUpdate c => cu_channel c = channel /\ say_ts env = Some (cu_ts c)
  | _ => True
  end.

(** ** More concrete worlds *)

(** A mention event that lacks its text. *)
Definition event_without_text : gmap string string :=
  list_to_map [("channel", "C1"); ("ts", "100.0")].

(** [turn_env] with the index name not configured. *)
Definition env_without_index : Env :=
  {| environ := delete "PINECONE_INDEX" (environ turn_env);
     py_int := py_int turn_env;
     imported_at := imported_at turn_env;
     say_ts := say_ts turn_env;
     qa_llm := qa_llm turn_env |}.

(** A first delivery whose headers spell the retry header with capitals. *)
Definition capitalised_retry_request : LambdaEvent :=
  {| headers := Some (list_to_map [("X-Slack-Retry-Num", "1")]);
     request := "{}" |}.

(** ** Observers of a run *)

(** The clock readings of the token callbacks whose publish came back, in
    order: the moments the displayed message was in fact replaced. *)
Fixpoint publish_times (cls : ClassAttrs) (self : Handler)
    (tokens : list TokenEvent) : list Q :=
  match tokens with
  | [] => []
  | e :: rest =>
      let o := fire cls self (OnToken e) in
      if published o
      then te_now e :: publish_times cls (self_after o) rest
      else publish_times cls (self_after o) rest
  end.

(** The number of token callbacks that issued an edit call which the
    outside world let return. *)
Fixpoint returned_calls (cls : ClassAttrs) (self : Handler)
    (tokens : list TokenEvent) : nat :=
  match tokens with
  | [] => 0%nat
  | e :: rest =>
      let o := fire cls self (OnToken e) in
      ((match issued o with
        | [] => 0
        | _ :: _ => if te_edit_raises e then 0 else 1
        end)
       + returned_calls cls (self_after o) rest)%nat
  end.

(** What a run from [__init__] keeps true of the two counters. *)
Definition counters_ok (self : Handler) : Prop :=
  0 <= update_count self <= 10 * interval self
  /\ (interval self = 1 \/ 5 * interval self < update_count self)
  /\ exists k : nat, interval self = 2 ^ Z.of_nat k.

(** * Properties *)

(** ** Rationals and strings *)

Lemma Qgtb_true_iff (x y : Q) : Qgtb x y = true <-> (y < x)%Q.
Proof.
  unfold Qgtb. rewrite negb_true_iff. split.
  - intros H. apply Qnot_le_lt. intros Hle.
    apply Qle_bool_iff in Hle. congruence.
  - intros H. destruct (Qle_bool x y) eqn:E; [|reflexivity].
    apply Qle_bool_iff in E. exfalso. exact (Qlt_not_le _ _ H E).
Qed.

Lemma tenth_gt_iff (c i : Z) :
  (inject_Z i < inject_Z c / 10)%Q <-> 10 * i < c.
Proof.
  unfold Qlt, Qdiv, Qmult, Qinv, inject_Z. simpl. lia.
Qed.

Lemma append_nil_r (s : string) : s +:+ "" = s.
Proof.
  induction s as [|c s IH]; [reflexivity|].
  change (String c (s +:+ "") = String c s). now rewrite IH.
Qed.

Lemma append_assoc (a b c : string) : (a +:+ b) +:+ c = a +:+ (b +:+ c).
Proof.
  induction a as [|x a IH]; [reflexivity|].
  change (String x ((a +:+ b) +:+ c) = String x (a +:+ (b +:+ c))).
  now rewrite IH.
Qed.

Lemma extends_trans (a b c : string) : extends a b -> extends b c -> extends a c.
Proof.
  intros [x ->] [y ->]. exists (x +:+ y). apply append_assoc.
Qed.

Lemma extends_append (a b : string) : extends a (a +:+ b).
Proof. now exists b. Qed.

Lemma full_text_cons (e : TokenEvent) (tokens : list TokenEvent) :
  full_text (e :: tokens) = te_token e +:+ full_text tokens.
Proof.
  unfold full_text. simpl. destruct (map te_token tokens) as [|t rest].
  - now rewrite append_nil_r.
  - reflexivity.
Qed.

Lemma full_text_app (a b : list TokenEvent) :
  full_text (a ++ b) = full_text a +:+ full_text b.
Proof.
  induction a as [|e a IH]; [reflexivity|].
  change ((e :: a) ++ b) with (e :: (a ++ b)).
  rewrite !full_text_cons, IH. symmetry. apply append_assoc.
Qed.

(** ** One callback *)

(** The branches of [on_llm_new_token]. *)
Ltac token_cases :=
  unfold on_llm_new_token;
  repeat match goal with
         | |- context [if gate_open ?c ?s ?n then _ else _] =>
             destruct (gate_open c s n) eqn:?
         | |- context [if backoff_due ?s then _ else _] =>
             destruct (backoff_due s) eqn:?
         | |- context [if ?b then _ else _] => destruct b eqn:?
         end.

Section Callbacks.

Variable cls : ClassAttrs.

Lemma gate_open_iff (self : Handler) (now : Q) :
  gate_open cls self now = true
  <-> (inject_Z (interval self) < now - get_last_send_time cls self)%Q.
Proof. apply Qgtb_true_iff. Qed.

Lemma backoff_due_iff (self : Handler) :
  backoff_due self = true <-> 10 * interval self < update_count self.
Proof.
  unfold backoff_due. rewrite Qgtb_true_iff. apply tenth_gt_iff.
Qed.

Lemma on_token_message self token now r :
  get_message cls (self_after (on_llm_new_token cls self token now r))
  = get_message cls self +:+ token.
Proof. token_cases; reflexivity. Qed.

Lemma on_token_target self token now r :
  channel (self_after (on_llm_new_token cls self token now r)) = channel self
  /\ ts (self_after (on_llm_new_token cls self token now r)) = ts self.
Proof. token_cases; split; reflexivity. Qed.

Lemma on_token_issued self token now r :
  issued (on_llm_new_token cls self token now r) = []
  \/ issued (on_llm_new_token cls self token now r)
     = [{| cu_channel := channel self; cu_ts := ts self;
           cu_text := (get_message cls self +:+ token) +:+ typing_marker |}].
Proof. token_cases; auto. Qed.

Lemma on_token_interval self token now r :
  0 < interval self ->
  interval self <= interval (self_after (on_llm_new_token cls self token now r))
  /\ 0 < interval (self_after (on_llm_new_token cls self token now r)).
Proof. intros Hpos. token_cases; simpl; lia. Qed.

Lemma fire_interval self cb :
  0 < interval self ->
  interval self <= interval (self_after (fire cls self cb))
  /\ 0 < interval (self_after (fire cls self cb)).
Proof.
  intros Hpos. destruct cb as [e|r]; simpl.
  - now apply on_token_interval.
  - lia.
Qed.

(** ** A sequence of callbacks *)

Lemma dispatch_cons self cb rest :
  dispatch cls self (cb :: rest)
  = (fst (dispatch cls (self_after (fire cls self cb)) rest),
     issued (fire cls self cb)
     ++ snd (dispatch cls (self_after (fire cls self cb)) rest)).
Proof.
  simpl. now destruct (dispatch cls (self_after (fire cls self cb)) rest).
Qed.

Lemma dispatch_app self cbs1 cbs2 :
  dispatch cls self (cbs1 ++ cbs2)
  = (fst (dispatch cls (fst (dispatch cls self cbs1)) cbs2),
     snd (dispatch cls self cbs1)
     ++ snd (dispatch cls (fst (dispatch cls self cbs1)) cbs2)).
Proof.
  revert self. induction cbs1 as [|cb cbs1 IH]; intros self.
  - simpl. now destruct (dispatch cls self cbs2).
  - change ((cb :: cbs1) ++ cbs2) with (cb :: (cbs1 ++ cbs2)).
    rewrite !dispatch_cons, IH. simpl. now rewrite app_assoc.
Qed.

Lemma dispatch_interval self cbs :
  0 < interval self ->
  interval self <= interval (fst (dispatch cls self cbs))
  /\ 0 < interval (fst (dispatch cls self cbs)).
Proof.
  revert self. induction cbs as [|cb cbs IH]; intros self Hpos.
  - simpl. lia.
  - rewrite dispatch_cons. simpl.
    destruct (fire_interval self cb Hpos) as [Hle Hpos'].
    destruct (IH _ Hpos') as [Hle' Hpos'']. lia.
Qed.

Lemma tokens_message self tokens :
  get_message cls (fst (dispatch cls self (map OnToken tokens)))
  = get_message cls self +:+ full_text tokens.
Proof.
  revert self. induction tokens as [|e tokens IH]; intros self.
  - simpl. now rewrite append_nil_r.
  - change (map OnToken (e :: tokens)) with (OnToken e :: map OnToken tokens).
    rewrite dispatch_cons. cbn [fst]. rewrite IH. cbn [fire].
    rewrite on_token_message, full_text_cons. apply append_assoc.
Qed.

Lemma tokens_target self tokens :
  channel (fst (dispatch cls self (map OnToken tokens))) = channel self
  /\ ts (fst (dispatch cls self (map OnToken tokens))) = ts self.
Proof.
  revert self. induction tokens as [|e tokens IH]; intros self.
  - now split.
  - change (map OnToken (e :: tokens)) with (OnToken e :: map OnToken tokens).
    rewrite dispatch_cons. cbn [fst].
    destruct (IH (self_after (fire cls self (OnToken e)))) as [-> ->].
    apply on_token_target.
Qed.

Lemma session_calls self tokens end_raises :
  snd (dispatch cls self (session tokens end_raises))
  = snd (dispatch cls self (map OnToken tokens))
    ++ [{| cu_channel := channel self; cu_ts := ts self;
           cu_text := get_message cls self +:+ full_text tokens |}].
Proof.
  unfold session. rewrite dispatch_app. simpl.
  destruct (tokens_target self tokens) as [-> ->].
  now rewrite tokens_message.
Qed.

(** Every partial publish shows the text of some prefix of the stream,
    followed by the marker. *)
Lemma partial_calls self tokens :
  Forall (fun c =>
            cu_channel c = channel self /\ cu_ts c = ts self /\
            exists k, (0 < k <= length tokens)%nat /\
              cu_text c = (get_message cls self +:+ full_text (firstn k tokens))
                          +:+ typing_marker)
         (snd (dispatch cls self (map OnToken tokens))).
Proof.
  revert self. induction tokens as [|e tokens IH]; intros self.
  - constructor.
  - change (map OnToken (e :: tokens)) with (OnToken e :: map OnToken tokens).
    rewrite dispatch_cons. cbn [snd]. apply Forall_app. split.
    + cbn [fire].
      destruct (on_token_issued self (te_token e) (te_now e)
                  (te_edit_raises e)) as [-> | ->]; constructor; [|constructor].
      simpl. repeat split. exists 1%nat. split; [simpl; lia|].
      cbn [firstn]. now rewrite full_text_cons, append_nil_r.
    + specialize (IH (self_after (fire cls self (OnToken e)))).
      eapply Forall_impl; [exact IH|].
      intros c (Hc & Ht & k & Hk & Htext). cbn [fire] in *.
      destruct (on_token_target self (te_token e) (te_now e)
                  (te_edit_raises e)) as [Hch Hts].
      rewrite Hch in Hc. rewrite Hts in Ht. repeat split; try assumption.
      exists (S k). split; [simpl; lia|].
      rewrite Htext, on_token_message. cbn [firstn].
      rewrite full_text_cons. f_equal. apply append_assoc.
Qed.

(** The texts behind the partial publishes grow. *)
Lemma partial_texts_grow self tokens :
  exists texts,
    map cu_text (snd (dispatch cls self (map OnToken tokens)))
    = map (fun m => m +:+ typing_marker) texts
    /\ Forall (extends (get_message cls self)) texts
    /\ Forall (fun m => extends m (get_message cls self +:+ full_text tokens)) texts
    /\ StronglySorted extends texts.
Proof.
  revert self. induction tokens as [|e tokens IH]; intros self.
  - exists []. repeat split; constructor.
  - change (map OnToken (e :: tokens)) with (OnToken e :: map OnToken tokens).
    rewrite dispatch_cons. cbn [snd]. cbn [fire].
    destruct (IH (self_after (on_llm_new_token cls self (te_token e) (te_now e)
                                (te_edit_raises e))))
      as (texts & Hmap & Hlow & Hhigh & Hsorted).
    rewrite on_token_message in Hlow, Hhigh.
    rewrite full_text_cons, <- append_assoc.
    assert (Hlow' : Forall (extends (get_message cls self)) texts).
    { eapply Forall_impl; [exact Hlow|]. intros m Hm.
      eapply extends_trans; [apply extends_append | exact Hm]. }
    destruct (on_token_issued self (te_token e) (te_now e)
                (te_edit_raises e)) as [-> | ->].
    + exists texts. simpl. auto.
    + exists ((get_message cls self +:+ te_token e) :: texts). simpl.
      rewrite Hmap. repeat split.
      * constructor; [apply extends_append | exact Hlow'].
      * constructor; [apply extends_append | exact Hhigh].
      * constructor; assumption.
Qed.

Lemma sorted_snoc {A : Type} (R : A -> A -> Prop) (l : list A) (y : A) :
  StronglySorted R l -> Forall (fun x => R x y) l ->
  StronglySorted R (l ++ [y]).
Proof.
  induction 1 as [|a l Hs IH Ha]; intros Hy.
  - repeat constructor.
  - inversion Hy as [|? ? Hay Hly]; subst. simpl. constructor.
    + now apply IH.
    + apply Forall_app. split; [exact Ha | now repeat constructor].
Qed.

Lemma published_iff self token now r :
  published (on_llm_new_token cls self token now r)
  = gate_open cls self now && negb r.
Proof.
  unfold published, on_llm_new_token.
  change (gate_open cls (set_message self (get_message cls self +:+ token)) now)
    with (gate_open cls self now).
  destruct (gate_open cls self now), r; reflexivity.
Qed.

Lemma on_token_issued_rule self token now r :
  issued (on_llm_new_token cls self token now r)
  = (if Qlt_le_dec (inject_Z (interval self))
           (now - get_last_send_time cls self)
     then [{| cu_channel := channel self; cu_ts := ts self;
              cu_text := (get_message cls self +:+ token) +:+ typing_marker |}]
     else []).
Proof.
  pose proof (gate_open_iff self now) as Hgate.
  unfold on_llm_new_token.
  change (gate_open cls (set_message self (get_message cls self +:+ token)) now)
    with (gate_open cls self now).
  destruct (gate_open cls self now);
    destruct (Qlt_le_dec _ _) as [Hlt | Hle]; try reflexivity.
  - now destruct r.
  - exfalso. apply Qle_not_lt in Hle. apply Hle. now apply Hgate.
  - apply Hgate in Hlt. discriminate.
Qed.

End Callbacks.

(** ** The same with a rounding subtraction *)

Section Subtraction.

Variable sub : Q -> Q -> Q.
Variable cls : ClassAttrs.

Lemma gate_open_with_dec (self : Handler) (now : Q) :
  gate_open_with sub cls self now
  = if elapsed_exceeds sub cls self now then true else false.
Proof.
  unfold gate_open_with, elapsed_exceeds.
  destruct (Qlt_le_dec _ _) as [Hlt | Hle].
  - now apply Qgtb_true_iff.
  - unfold Qgtb. apply negb_false_iff. now apply Qle_bool_iff.
Qed.

(** The four observable parts of a token callback, read off its inputs. *)
Lemma on_token_with_parts self token now r :
  let o := on_llm_new_token_with sub cls self token now r in
  let call := {| cu_channel := channel self; cu_ts := ts self;
                 cu_text := (get_message cls self +:+ token)
                            +:+ typing_marker |} in
  get_message cls (self_after o) = get_message cls self +:+ token
  /\ channel (self_after o) = channel self
  /\ ts (self_after o) = ts self
  /\ issued o = (if elapsed_exceeds sub cls self now then [call] else [])
  /\ ended o
     = (if elapsed_exceeds sub cls self now
        then if r then Raised else Returned
        else Returned)
  /\ last_send_time (self_after o)
     = (if elapsed_exceeds sub cls self now
        then if r then last_send_time self else Some now
        else last_send_time self).
Proof.
  cbv zeta. unfold on_llm_new_token_with.
  change (gate_open_with sub cls
            (set_message self (get_message cls self +:+ token)) now)
    with (gate_open_with sub cls self now).
  rewrite gate_open_with_dec.
  destruct (elapsed_exceeds sub cls self now); [|now repeat split].
  destruct r; [now repeat split|].
  match goal with
  | |- context [if backoff_due ?s then _ else _] => destruct (backoff_due s)
  end; now repeat split.
Qed.


Lemma dispatch_with_cons self cb rest :
  dispatch_with sub cls self (cb :: rest)
  = (fst (dispatch_with sub cls (self_after (fire_with sub cls self cb)) rest),
     issued (fire_with sub cls self cb)
     ++ snd (dispatch_with sub cls (self_after (fire_with sub cls self cb))
               rest)).
Proof.
  simpl.
  now destruct (dispatch_with sub cls (self_after (fire_with sub cls self cb))
                  rest).
Qed.

Lemma dispatch_with_app self cbs1 cbs2 :
  dispatch_with sub cls self (cbs1 ++ cbs2)
  = (fst (dispatch_with sub cls (fst (dispatch_with sub cls self cbs1)) cbs2),
     snd (dispatch_with sub cls self cbs1)
     ++ snd (dispatch_with sub cls (fst (dispatch_with sub cls self cbs1))
               cbs2)).
Proof.
  revert self. induction cbs1 as [|cb cbs1 IH]; intros self.
  - simpl. now destruct (dispatch_with sub cls self cbs2).
  - change ((cb :: cbs1) ++ cbs2) with (cb :: (cbs1 ++ cbs2)).
    rewrite !dispatch_with_cons, IH. simpl. now rewrite app_assoc.
Qed.

Lemma tokens_with_state self tokens :
  let h := fst (dispatch_with sub cls self (map OnToken tokens)) in
  get_message cls h = get_message cls self +:+ full_text tokens
  /\ channel h = channel self /\ ts h = ts self.
Proof.
  cbv zeta. revert self. induction tokens as [|e tokens IH]; intros self.
  - simpl. now rewrite append_nil_r.
  - change (map OnToken (e :: tokens)) with (OnToken e :: map OnToken tokens).
    rewrite dispatch_with_cons. cbn [fst fire_with].
    destruct (on_token_with_parts self (te_token e) (te_now e)
                (te_edit_raises e)) as (Hm & Hc & Ht & _).
    destruct (IH (self_after (on_llm_new_token_with sub cls self (te_token e)
                                (te_now e) (te_edit_raises e))))
      as (-> & -> & ->).
    rewrite Hm, Hc, Ht, full_text_cons. repeat split. apply append_assoc.
Qed.

Lemma session_with_calls self tokens end_raises :
  snd (dispatch_with sub cls self (session tokens end_raises))
  = snd (dispatch_with sub cls self (map OnToken tokens))
    ++ [{| cu_channel := channel self; cu_ts := ts self;
           cu_text := get_message cls self +:+ full_text tokens |}].
Proof.
  unfold session. rewrite dispatch_with_app. simpl.
  now destruct (tokens_with_state self tokens) as (-> & -> & ->).
Qed.

Lemma partial_texts_with_grow self tokens :
  exists texts,
    map cu_text (snd (dispatch_with sub cls self (map OnToken tokens)))
    = map (fun m => m +:+ typing_marker) texts
    /\ Forall (extends (get_message cls self)) texts
    /\ Forall (fun m => extends m (get_message cls self +:+ full_text tokens))
         texts
    /\ StronglySorted extends texts.
Proof.
  revert self. induction tokens as [|e tokens IH]; intros self.
  - exists []. repeat split; constructor.
  - change (map OnToken (e :: tokens)) with (OnToken e :: map OnToken tokens).
    rewrite dispatch_with_cons. cbn [snd fire_with].
    destruct (on_token_with_parts self (te_token e) (te_now e)
                (te_edit_raises e)) as (Hm & _ & _ & Hissued & _).
    destruct (IH (self_after (on_llm_new_token_with sub cls self (te_token e)
                                (te_now e) (te_edit_raises e))))
      as (texts & Hmap & Hlow & Hhigh & Hsorted).
    rewrite Hm in Hlow, Hhigh. rewrite Hissued.
    rewrite full_text_cons, <- append_assoc.
    assert (Hlow' : Forall (extends (get_message cls self)) texts).
    { eapply Forall_impl; [exact Hlow|]. intros m Hmext.
      eapply extends_trans; [apply extends_append | exact Hmext]. }
    destruct (elapsed_exceeds sub cls self (te_now e)).
    + exists ((get_message cls self +:+ te_token e) :: texts). simpl.
      rewrite Hmap. repeat split.
      * constructor; [apply extends_append | exact Hlow'].
      * constructor; [apply extends_append | exact Hhigh].
      * constructor; assumption.
    + exists texts. simpl. auto.
Qed.

End Subtraction.

(** With the exact difference these are the definitions used before. *)
Lemma on_llm_new_token_exact cls self token now r :
  on_llm_new_token_with Qminus cls self token now r
  = on_llm_new_token cls self token now r.
Proof. reflexivity. Qed.

Lemma dispatch_exact cls self cbs :
  dispatch_with Qminus cls self cbs = dispatch cls self cbs.
Proof.
  revert self. induction cbs as [|cb cbs IH]; intros self; [reflexivity|].
  rewrite dispatch_with_cons, dispatch_cons, !IH. now destruct cb.
Qed.

(** ** The streaming session *)

(** C1. Whatever tokens one session receives, and whichever edit calls
    fail, [on_llm_end] issues one call, it is the last call of the session,
    its text is the tokens concatenated in arrival order with nothing
    appended, and every call before it comes from a token callback and
    shows a non-empty prefix of the stream followed by the marker. *)
Theorem final_publish_is_full_text (import_time : Q) (ch t : string)
    (tokens : list TokenEvent) (end_raises : bool) :
  let cls := class_body import_time in
  let final := {| cu_channel := ch; cu_ts := t; cu_text := full_text tokens |} in
  let partial := snd (dispatch cls (__init__ ch t) (map OnToken tokens)) in
  issued (on_llm_end cls (fst (dispatch cls (__init__ ch t) (map OnToken tokens)))
            end_raises) = [final]
  /\ snd (dispatch cls (__init__ ch t) (session tokens end_raises))
     = partial ++ [final]
  /\ Forall (fun c => exists k, (0 < k <= length tokens)%nat /\
               cu_text c = full_text (firstn k tokens) +:+ typing_marker)
       partial.
Proof.
  intros cls final partial. subst final partial. repeat split.
  - unfold on_llm_end. cbn [issued].
    destruct (tokens_target cls (__init__ ch t) tokens) as [-> ->].
    now rewrite tokens_message.
  - now rewrite session_calls.
  - eapply Forall_impl; [apply (partial_calls cls (__init__ ch t) tokens)|].
    intros c (_ & _ & k & Hk & Htext). exists k. split; [exact Hk|].
    exact Htext.
Qed.

(** The empty stream: the one call of the session carries the empty text. *)
Example empty_stream_publishes_once (import_time : Q) (ch t : string) (r : bool) :
  snd (dispatch (class_body import_time) (__init__ ch t) (session [] r))
  = [{| cu_channel := ch; cu_ts := t; cu_text := "" |}].
Proof. reflexivity. Qed.

(** The tokens [Hel], [lo], [, ], [world], [!] on a class body run at clock
    0, the fourth arriving at 1.2: one partial publish, then the final one. *)
Example hello_world_two_publishes :
  snd (dispatch (class_body 0) (__init__ "C1" "200.1")
         (session [mkTokenEvent "Hel" (2 # 10) false;
                   mkTokenEvent "lo" (4 # 10) false;
                   mkTokenEvent ", " (6 # 10) false;
                   mkTokenEvent "world" (12 # 10) false;
                   mkTokenEvent "!" (14 # 10) false] false))
  = [{| cu_channel := "C1"; cu_ts := "200.1";
        cu_text := "Hello, world" +:+ typing_marker |};
     {| cu_channel := "C1"; cu_ts := "200.1"; cu_text := "Hello, world!" |}].
Proof. reflexivity. Qed.

(** C3. When the edit call of a token callback raises, the call was made
    with the text so far, the token of that callback is already part of the
    text, the counters and the time of the last publish are as they were,
    every later token is appended as well, and the last call of the session
    carries the whole text. *)
Theorem failed_publish_keeps_ingesting (import_time : Q) (ch t : string)
    (before : list TokenEvent) (e : TokenEvent) (after : list TokenEvent)
    (end_raises : bool) :
  let cls := class_body import_time in
  let h := fst (dispatch cls (__init__ ch t) (map OnToken before)) in
  let o := fire cls h (OnToken e) in
  ended o = Raised ->
  issued o = [{| cu_channel := ch; cu_ts := t;
                 cu_text := full_text (before ++ [e]) +:+ typing_marker |}]
  /\ get_message cls (self_after o) = full_text (before ++ [e])
  /\ interval (self_after o) = interval h
  /\ update_count (self_after o) = update_count h
  /\ last_send_time (self_after o) = last_send_time h
  /\ (forall k,
        get_message cls
          (fst (dispatch cls (__init__ ch t)
                  (map OnToken (before ++ e :: firstn k after))))
        = full_text (before ++ e :: firstn k after))
  /\ last (snd (dispatch cls (__init__ ch t)
                  (session (before ++ e :: after) end_raises)))
     = Some {| cu_channel := ch; cu_ts := t;
               cu_text := full_text (before ++ e :: after) |}.
Proof.
  intros cls h o Hraised. subst o. cbn [fire] in *.
  assert (Hh : get_message cls h = full_text before).
  { subst h. now rewrite tokens_message. }
  assert (Hnew : get_message cls h +:+ te_token e = full_text (before ++ [e])).
  { rewrite Hh, full_text_app.
    now rewrite (full_text_cons e []), append_nil_r. }
  split; [|split; [|split; [|split; [|split; [|split]]]]].
  - destruct (tokens_target cls (__init__ ch t) before) as [Hch Hts].
    fold h in Hch, Hts. cbn [channel ts __init__] in Hch, Hts.
    destruct (on_token_issued cls h (te_token e) (te_now e) (te_edit_raises e))
      as [Hnone | Hone].
    + exfalso. revert Hraised Hnone. token_cases; simpl; intros; congruence.
    + now rewrite Hone, Hch, Hts, Hnew.
  - now rewrite on_token_message.
  - revert Hraised. token_cases; simpl; intros; congruence.
  - revert Hraised. token_cases; simpl; intros; congruence.
  - revert Hraised. token_cases; simpl; intros; congruence.
  - intros k. now rewrite tokens_message.
  - rewrite session_calls. now rewrite last_snoc.
Qed.

Lemma failed_publish_witness :
  ended (fire (class_body 0) (__init__ "C1" "200.1") (OnToken failing_token))
  = Raised
  /\ last (snd (dispatch (class_body 0) (__init__ "C1" "200.1")
                  (session (failing_token :: later_tokens) false)))
     = Some {| cu_channel := "C1"; cu_ts := "200.1"; cu_text := "Hi there!" |}.
Proof.
  split; [reflexivity|].
  destruct (failed_publish_keeps_ingesting 0 "C1" "200.1" [] failing_token
              later_tokens false) as (_ & _ & _ & _ & _ & _ & Hlast);
    [reflexivity | exact Hlast].
Defined.


(** C6. Over any sequence of token and end callbacks on a fresh handler,
    [interval] at a later point is at least [interval] at an earlier one. *)
Theorem interval_never_decreases (cls : ClassAttrs) (ch t : string)
    (earlier later : list callback) :
  interval (fst (dispatch cls (__init__ ch t) earlier))
  <= interval (fst (dispatch cls (__init__ ch t) (earlier ++ later))).
Proof.
  rewrite dispatch_app. cbn [fst].
  assert (H0 : 0 < interval (__init__ ch t)) by (simpl; reflexivity).
  destruct (dispatch_interval cls _ earlier H0) as [_ Hpos].
  now destruct (dispatch_interval cls _ later Hpos).
Qed.

(** C9, as the program has it. A token callback appends the token first;
    it issues an edit call exactly when the time since the last publish, as
    the code computes it, exceeds [interval]; the call carries the new text
    followed by the marker; [last_send_time] becomes the current time
    exactly when that call returns, and stays as it was when the call
    raises or is not made. Over a session the texts behind the successive
    calls, the final one included, each extend the ones before. *)
Theorem token_publish_rule (sub : Q -> Q -> Q) (cls : ClassAttrs)
    (self : Handler) (token : string) (now : Q) (r : bool)
    (tokens : list TokenEvent) (end_raises : bool) :
  let o := on_llm_new_token_with sub cls self token now r in
  get_message cls (self_after o) = get_message cls self +:+ token
  /\ issued o
     = (if elapsed_exceeds sub cls self now
        then [{| cu_channel := channel self; cu_ts := ts self;
                 cu_text := (get_message cls self +:+ token)
                            +:+ typing_marker |}]
        else [])
  /\ ended o
     = (if elapsed_exceeds sub cls self now
        then if r then Raised else Returned
        else Returned)
  /\ last_send_time (self_after o)
     = (if elapsed_exceeds sub cls self now
        then if r then last_send_time self else Some now
        else last_send_time self)
  /\ exists texts,
       map cu_text (snd (dispatch_with sub cls self (session tokens end_raises)))
       = map (fun m => m +:+ typing_marker) texts
         ++ [get_message cls self +:+ full_text tokens]
       /\ StronglySorted extends
            (texts ++ [get_message cls self +:+ full_text tokens]).
Proof.
  cbv zeta.
  destruct (on_token_with_parts sub cls self token now r)
    as (Hm & _ & _ & Hissued & Hended & Hlast).
  repeat (split; [assumption|]).
  destruct (partial_texts_with_grow sub cls self tokens)
    as (texts & Hmap & _ & Hhigh & Hsorted).
  exists texts. split.
  - rewrite session_with_calls, map_app, Hmap. reflexivity.
  - now apply sorted_snoc.
Qed.

(** C9 as stated fails when the edit call raises. With the class body run at
    clock 0 and a first token at clock 5, the time since the last publish
    exceeds [interval] and the call is made with the text and the marker,
    but it raises: [last_send_time] is not set to 5, the handler still
    reads the 0 of the class. *)
Lemma raised_edit_call_leaves_last_send_time :
  (inject_Z (interval (__init__ "C1" "200.1"))
   < 5 - get_last_send_time (class_body 0) (__init__ "C1" "200.1"))%Q
  /\ issued (on_llm_new_token (class_body 0) (__init__ "C1" "200.1") "Hi" 5 true)
     = [{| cu_channel := "C1"; cu_ts := "200.1";
           cu_text := "Hi" +:+ typing_marker |}]
  /\ ended (on_llm_new_token (class_body 0) (__init__ "C1" "200.1") "Hi" 5 true)
     = Raised
  /\ published
       (on_llm_new_token (class_body 0) (__init__ "C1" "200.1") "Hi" 5 true)
     = false
  /\ last_send_time
       (self_after
          (on_llm_new_token (class_body 0) (__init__ "C1" "200.1") "Hi" 5 true))
     = None
  /\ ~ (get_last_send_time (class_body 0)
          (self_after
             (on_llm_new_token (class_body 0) (__init__ "C1" "200.1") "Hi" 5
                true)) == 5)%Q.
Proof.
  split; [reflexivity|]. repeat (split; [reflexivity|]). discriminate.
Qed.

(** C4, at the failing input. The class body ran at clock 0; a session is
    made much later and its first token arrives at clock 100.01: the
    callback publishes at once, since the time of the last publish it
    compares with is the one of the class body. *)
Theorem first_token_publishes_on_stale_clock :
  issued (on_llm_new_token (class_body 0) (__init__ "C1" "100.5")
            "Hi" (10001 # 100) false)
  = [{| cu_channel := "C1"; cu_ts := "100.5";
        cu_text := "Hi" +:+ typing_marker |}].
Proof. reflexivity. Qed.

(** The same for every session: [__init__] reads no clock, so the moment
    the session starts has no part in the gate. *)
Lemma first_token_gate (import_time now : Q) (ch t token : string) (r : bool) :
  (import_time + 1 < now)%Q ->
  issued (on_llm_new_token (class_body import_time) (__init__ ch t) token now r)
  = [{| cu_channel := ch; cu_ts := t; cu_text := token +:+ typing_marker |}].
Proof.
  intros Hlate.
  rewrite on_token_issued_rule. destruct (Qlt_le_dec _ _) as [_ | Hle]; [reflexivity|].
  exfalso. apply Qle_not_lt in Hle. apply Hle. cbn.
  apply Qplus_lt_l with (z := import_time). ring_simplify.
  now rewrite Qplus_comm.
Qed.

(** ** The mention pattern *)

Lemma is_nl_eq (c : ascii) : is_nl c = true -> c = ascii_of_nat 10.
Proof. unfold is_nl. apply Ascii.eqb_eq. Qed.

Lemma dot_star_gt_last_gt (s : list ascii) :
  on_one_line s -> dot_star_gt s = option_map S (last_gt s).
Proof.
  induction 1 as [|c r Hc Hr IH]; [reflexivity|].
  simpl. rewrite Hc, IH. destruct (last_gt r); [reflexivity|].
  now destruct (is_gt c).
Qed.

Lemma dot_star_gt_line (l rest : list ascii) :
  on_one_line l ->
  dot_star_gt (l ++ ascii_of_nat 10 :: rest) = dot_star_gt l.
Proof.
  induction 1 as [|c r Hc Hr IH]; [reflexivity|].
  simpl. now rewrite Hc, IH.
Qed.

Lemma dot_star_gt_bound (s : list ascii) (n : nat) :
  dot_star_gt s = Some n -> (0 < n <= length s)%nat.
Proof.
  revert n. induction s as [|c r IH]; intros n; simpl; [discriminate|].
  destruct (is_nl c); [discriminate|].
  destruct (dot_star_gt r) as [m|].
  - intros [= <-]. specialize (IH m eq_refl). lia.
  - destruct (is_gt c); [|discriminate]. intros [= <-]. lia.
Qed.

Lemma dot_star_gt_has_gt (s : list ascii) (n : nat) :
  dot_star_gt s = Some n -> exists q, last_gt s = Some q.
Proof.
  revert n. induction s as [|c r IH]; intros n; simpl; [discriminate|].
  destruct (is_nl c); [discriminate|].
  destruct (dot_star_gt r) as [m|].
  - intros _. destruct (IH m eq_refl) as [q ->]. eauto.
  - destruct (is_gt c); [|discriminate]. intros _.
    destruct (last_gt r); eauto.
Qed.

Lemma match_at_bound (s : list ascii) (n : nat) :
  match_at s = Some n -> (0 < n <= length s)%nat.
Proof.
  destruct s as [|c1 [|c2 r]]; simpl; try discriminate.
  destruct (Ascii.eqb c1 "<" && Ascii.eqb c2 "@"); [|discriminate].
  destruct (dot_star_gt r) as [m|] eqn:E; [|discriminate].
  intros [= <-]. apply dot_star_gt_bound in E. lia.
Qed.

Lemma match_at_line (l rest : list ascii) :
  on_one_line l ->
  match_at (l ++ ascii_of_nat 10 :: rest) = match_at l.
Proof.
  intros Hl. destruct l as [|c1 [|c2 r]].
  - simpl. now destruct rest.
  - simpl. now rewrite andb_false_r.
  - simpl. destruct (Ascii.eqb c1 "<" && Ascii.eqb c2 "@"); [|reflexivity].
    rewrite dot_star_gt_line; [reflexivity|].
    inversion Hl as [|? ? _ Hl']; subst. now inversion Hl'.
Qed.

Lemma sub_from_line (l rest : list ascii) (k : nat) :
  on_one_line l -> (k <= length l)%nat ->
  sub_from k (l ++ ascii_of_nat 10 :: rest)
  = sub_from k l ++ ascii_of_nat 10 :: sub_from 0 rest.
Proof.
  intros Hl. revert k. induction Hl as [|c r Hc Hr IH]; intros k Hk.
  - simpl in Hk. assert (k = 0%nat) as -> by lia.
    change ([] ++ ascii_of_nat 10 :: rest) with (ascii_of_nat 10 :: rest).
    cbn [sub_from app].
    replace (match_at (ascii_of_nat 10 :: rest)) with (@None nat);
      [reflexivity|]. now destruct rest.
  - change ((c :: r) ++ ascii_of_nat 10 :: rest)
      with (c :: (r ++ ascii_of_nat 10 :: rest)).
    destruct k as [|k].
    + cbn [sub_from].
      change (c :: (r ++ ascii_of_nat 10 :: rest))
        with ((c :: r) ++ ascii_of_nat 10 :: rest).
      rewrite match_at_line by now constructor.
      destruct (match_at (c :: r)) as [n|] eqn:E.
      * apply match_at_bound in E. simpl in E. apply IH. lia.
      * rewrite IH by lia. reflexivity.
    + cbn [sub_from]. apply IH. simpl in Hk. lia.
Qed.

Lemma sub_from_skip (s : list ascii) (k : nat) :
  sub_from k s = sub_from 0 (skipn k s).
Proof.
  revert k. induction s as [|c r IH]; intros k.
  - now destruct k.
  - destruct k as [|k]; [reflexivity|]. cbn [sub_from skipn]. apply IH.
Qed.

Lemma last_gt_cons_none (c : ascii) (r : list ascii) :
  last_gt (c :: r) = None -> is_gt c = false /\ last_gt r = None.
Proof.
  simpl. destruct (last_gt r); [discriminate|].
  destruct (is_gt c); [discriminate|]. now split.
Qed.

Lemma sub_from_no_gt (s : list ascii) :
  last_gt s = None -> sub_from 0 s = s.
Proof.
  induction s as [|c r IH]; intros Hs; [reflexivity|].
  cbn [sub_from]. destruct (match_at (c :: r)) as [n|] eqn:E.
  - exfalso. destruct r as [|c2 r']; simpl in E; [discriminate|].
    destruct (Ascii.eqb c "<" && Ascii.eqb c2 "@"); [|discriminate].
    destruct (dot_star_gt r') as [m|] eqn:E'; [|discriminate].
    destruct (dot_star_gt_has_gt _ _ E') as [q Hq].
    apply last_gt_cons_none in Hs as [_ Hs].
    apply last_gt_cons_none in Hs as [_ Hs]. congruence.
  - apply last_gt_cons_none in Hs as [_ Hs]. now rewrite IH.
Qed.

Lemma last_gt_skipn (s : list ascii) (q : nat) :
  last_gt s = Some q -> last_gt (skipn (S q) s) = None.
Proof.
  revert q. induction s as [|c r IH]; intros q; simpl; [discriminate|].
  destruct (last_gt r) as [m|] eqn:E.
  - intros [= <-]. now apply IH.
  - destruct (is_gt c); [|discriminate]. intros [= <-].
    now rewrite skipn_0.
Qed.

Lemma find_mention_cons (c1 c2 : ascii) (r : list ascii) :
  find_mention (c1 :: c2 :: r)
  = if Ascii.eqb c1 "<" && Ascii.eqb c2 "@" then Some 0%nat
    else option_map S (find_mention (c2 :: r)).
Proof. reflexivity. Qed.

Lemma match_at_cons (c1 c2 : ascii) (r : list ascii) :
  match_at (c1 :: c2 :: r)
  = if Ascii.eqb c1 "<" && Ascii.eqb c2 "@"
    then option_map (fun n => S (S n)) (dot_star_gt r)
    else None.
Proof. reflexivity. Qed.

Lemma sub_from_no_mention (s : list ascii) :
  find_mention s = None -> sub_from 0 s = s.
Proof.
  induction s as [|c r IH]; intros Hs; [reflexivity|].
  cbn [sub_from]. destruct r as [|c2 r'].
  - reflexivity.
  - rewrite find_mention_cons in Hs. rewrite match_at_cons.
    destruct (Ascii.eqb c "<" && Ascii.eqb c2 "@"); [discriminate|].
    rewrite IH; [reflexivity|].
    destruct (find_mention (c2 :: r')); [discriminate | reflexivity].
Qed.

Lemma head_is_mention (c1 c2 : ascii) :
  Ascii.eqb c1 "<" && Ascii.eqb c2 "@" = true ->
  is_gt c1 = false /\ is_gt c2 = false.
Proof.
  intros H. apply andb_true_iff in H as [H1 H2].
  apply Ascii.eqb_eq in H1, H2. subst. now split.
Qed.

Lemma strip_span_keep (c : ascii) (r : list ascii) :
  on_one_line (c :: r) -> match_at (c :: r) = None ->
  strip_span (c :: r) = c :: strip_span r.
Proof.
  intros Hl Hm. destruct r as [|c2 r']; [reflexivity|].
  unfold strip_span. rewrite find_mention_cons. rewrite match_at_cons in Hm.
  destruct (Ascii.eqb c "<" && Ascii.eqb c2 "@") eqn:Hhead.
  - destruct (head_is_mention _ _ Hhead) as [Hc Hc2].
    assert (Hr' : last_gt r' = None).
    { inversion Hl as [|? ? _ Hl']; subst. inversion Hl' as [|? ? _ Hl'']; subst.
      rewrite (dot_star_gt_last_gt _ Hl'') in Hm.
      now destruct (last_gt r'). }
    assert (Hr : last_gt (c2 :: r') = None) by (simpl; now rewrite Hr', Hc2).
    assert (Hall : last_gt (c :: c2 :: r') = None).
    { change (last_gt (c :: c2 :: r'))
        with (match last_gt (c2 :: r') with
              | Some n => Some (S n)
              | None => if is_gt c then Some 0%nat else None
              end).
      now rewrite Hr, Hc. }
    rewrite Hall, Hr. now destruct (find_mention (c2 :: r')).
  - change (last_gt (c :: c2 :: r'))
      with (match last_gt (c2 :: r') with
            | Some n => Some (S n)
            | None => if is_gt c then Some 0%nat else None
            end).
    destruct (find_mention (c2 :: r')) as [p|]; cbn [option_map].
    + destruct (last_gt (c2 :: r')) as [q|].
      * change (S p + 2 <=? S q)%nat with (p + 2 <=? q)%nat.
        now destruct (p + 2 <=? q)%nat.
      * destruct (is_gt c); [|reflexivity].
        replace (S p + 2 <=? 0)%nat with false; [reflexivity|].
        symmetry. apply Nat.leb_gt. lia.
    + now destruct (last_gt (c2 :: r')); [|destruct (is_gt c)].
Qed.

(** On one line the scan removes exactly the span from the first ["<@"] to
    the last [">"]. *)
Lemma sub_from_one_line (l : list ascii) :
  on_one_line l -> sub_from 0 l = strip_span l.
Proof.
  induction l as [|c r IH]; intros Hl; [reflexivity|].
  cbn [sub_from]. destruct (match_at (c :: r)) as [n|] eqn:E.
  - destruct r as [|c2 r']; [discriminate|].
    rewrite match_at_cons in E.
    destruct (Ascii.eqb c "<" && Ascii.eqb c2 "@") eqn:Hhead; [|discriminate].
    inversion Hl as [|? ? _ Hl']; subst. inversion Hl' as [|? ? _ Hl'']; subst.
    rewrite (dot_star_gt_last_gt _ Hl'') in E.
    destruct (last_gt r') as [q|] eqn:Hq; [|discriminate].
    cbn [option_map] in E. injection E as <-.
    cbn [Nat.pred sub_from]. rewrite sub_from_skip.
    rewrite sub_from_no_gt by now apply last_gt_skipn.
    unfold strip_span. rewrite find_mention_cons, Hhead.
    change (last_gt (c :: c2 :: r'))
      with (match (match last_gt r' with
                   | Some n => Some (S n)
                   | None => if is_gt c2 then Some 0%nat else None
                   end) with
            | Some n => Some (S n)
            | None => if is_gt c then Some 0%nat else None
            end).
    rewrite Hq. reflexivity.
  - inversion Hl as [|? ? _ Hl']; subst.
    rewrite IH by assumption. symmetry. now apply strip_span_keep.
Qed.

Lemma lines_nonempty (s : list ascii) : lines s <> [].
Proof.
  destruct s as [|c r]; simpl; [discriminate|].
  destruct (is_nl c); [discriminate|]. now destruct (lines r).
Qed.

Lemma lines_cases (s : list ascii) :
  (on_one_line s /\ lines s = [s])
  \/ exists l rest, s = l ++ ascii_of_nat 10 :: rest
                    /\ on_one_line l /\ lines s = l :: lines rest.
Proof.
  induction s as [|c r IH].
  - left. split; [constructor | reflexivity].
  - simpl. destruct (is_nl c) eqn:Hc.
    + right. exists [], r. apply is_nl_eq in Hc. subst.
      repeat split. constructor.
    + destruct IH as [[Hr Hlines] | (l & rest & -> & Hl & Hlines)].
      * left. rewrite Hlines. split; [now constructor | reflexivity].
      * right. exists (c :: l), rest. rewrite Hlines.
        repeat split. now constructor.
Qed.

Lemma unlines_cons (l : list ascii) (ls : list (list ascii)) :
  ls <> [] -> unlines (l :: ls) = l ++ ascii_of_nat 10 :: unlines ls.
Proof. destruct ls; [congruence | reflexivity]. Qed.

Lemma sub_from_by_line (s : list ascii) :
  sub_from 0 s = unlines (map strip_span (lines s)).
Proof.
  remember (length s) as n eqn:Hn. revert s Hn.
  induction n as [n IH] using lt_wf_ind. intros s Hn.
  destruct (lines_cases s) as [[Hs Hlines] | (l & rest & -> & Hl & Hlines)].
  - rewrite Hlines. simpl. now apply sub_from_one_line.
  - rewrite Hlines, sub_from_line by (assumption || lia).
    cbn [map]. rewrite unlines_cons.
    + rewrite sub_from_one_line by assumption.
      rewrite <- (IH (length rest)); [reflexivity | | reflexivity].
      subst n. rewrite length_app. simpl. lia.
    + intros Hmap. apply map_eq_nil in Hmap. now apply lines_nonempty in Hmap.
Qed.

(** ** The turn *)

Lemma keeps_key_ret {A : Type} key (a : A) : keeps_key key (ret a).
Proof. intros w. exists []. split; [now rewrite app_nil_r | constructor]. Qed.

Lemma keeps_key_raise {A : Type} key (e : exn) : keeps_key key (@raise A e).
Proof. intros w. exists []. split; [now rewrite app_nil_r | constructor]. Qed.

Lemma keeps_key_bind {A B : Type} key (m : M A) (k : A -> M B) :
  keeps_key key m -> (forall a, keeps_key key (k a)) ->
  keeps_key key (bind m k).
Proof.
  intros Hm Hk w. unfold bind. destruct (Hm w) as (new1 & Ht1 & Hf1).
  destruct (m w) as [[a|e] w1]; cbn [snd] in *.
  - destruct (Hk a w1) as (new2 & Ht2 & Hf2).
    exists (new1 ++ new2). split.
    + now rewrite Ht2, Ht1, app_assoc.
    + apply Forall_app. now split.
  - exists new1. now split.
Qed.

Lemma keeps_key_ret_bind {A B : Type} key (a : A) (k : A -> M B) :
  keeps_key key (k a) -> keeps_key key (bind (ret a) k).
Proof. intros H. exact H. Qed.

Lemma keeps_key_emit_all key (es : list effect) :
  Forall (fun e => history_key e = None) es -> keeps_key key (emit_all es).
Proof.
  intros Hes w. exists es. split; [reflexivity|].
  eapply Forall_impl; [exact Hes|]. intros e He k. rewrite He. discriminate.
Qed.

Lemma keeps_key_emit key (e : effect) :
  history_key e = None -> keeps_key key (emit e).
Proof.
  intros He w. exists [e]. split; [reflexivity|].
  constructor; [|constructor]. intros k. rewrite He. discriminate.
Qed.

Lemma keeps_key_subscript {V : Type} key (d : gmap string V) (name : string) :
  keeps_key key (subscript d name).
Proof.
  unfold subscript. destruct (d !! name);
    [apply keeps_key_ret | apply keeps_key_raise].
Qed.

Lemma keeps_key_history_messages key : keeps_key key (history_messages key).
Proof.
  intros w. exists [EHistoryRead key]. split; [reflexivity|].
  constructor; [|constructor]. now intros k [= <-].
Qed.

Lemma keeps_key_history_add key (m : Message) :
  keeps_key key (history_add key m).
Proof.
  intros w. exists [EHistoryAdd key m]. split; [reflexivity|].
  constructor; [|constructor]. now intros k [= <-].
Qed.

Lemma chat_updates_no_key (calls : list ChatUpdate) :
  Forall (fun e => history_key e = None) (map EChatUpdate calls).
Proof. induction calls; constructor; [reflexivity | assumption]. Qed.

Lemma keeps_key_qa_prompt key (d : gmap string chain_arg) :
  keeps_key key (qa_prompt d).
Proof.
  unfold qa_prompt.
  apply keeps_key_bind; [apply keeps_key_subscript | intros _].
  apply keeps_key_bind; [apply keeps_key_subscript | intros chat_history].
  apply keeps_key_bind; [apply keeps_key_subscript | intros input].
  destruct input, chat_history;
    first [apply keeps_key_ret | apply keeps_key_raise].
Qed.

Lemma keeps_key_qa_chain key env callback (d : gmap string chain_arg) :
  keeps_key key (qa_chain env callback d).
Proof.
  unfold qa_chain. apply keeps_key_bind; [apply keeps_key_qa_prompt|].
  intros [input chat_history].
  apply keeps_key_bind; [now apply keeps_key_emit|].
  intros _. destruct (g_end (qa_llm env input chat_history)).
  - apply keeps_key_bind;
      [apply keeps_key_emit_all, chat_updates_no_key | intros _; apply keeps_key_ret].
  - apply keeps_key_bind;
      [apply keeps_key_emit_all, chat_updates_no_key | intros _; apply keeps_key_raise].
Qed.

Lemma keeps_key_say key env text thread_ts :
  keeps_key key (say env text thread_ts).
Proof.
  unfold say. apply keeps_key_bind; [now apply keeps_key_emit | intros _].
  destruct (say_ts env); [apply keeps_key_ret | apply keeps_key_raise].
Qed.

Lemma keeps_key_int key env s : keeps_key key (int env s).
Proof.
  unfold int. destruct (py_int env s);
    [apply keeps_key_ret | apply keeps_key_raise].
Qed.

Lemma keeps_key_rephrase key input : keeps_key key (rephrase input).
Proof. apply keeps_key_raise. Qed.

Create HintDb keeps_key.

#[local] Hint Resolve keeps_key_ret keeps_key_raise keeps_key_subscript
  keeps_key_history_messages keeps_key_history_add keeps_key_qa_chain
  keeps_key_say keeps_key_int keeps_key_rephrase : keeps_key.

(** One statement of a body after the other. *)
Ltac keeps_key_steps :=
  repeat lazymatch goal with
         | |- keeps_key _ (bind (ret _) _) => apply keeps_key_ret_bind
         | |- keeps_key _ (bind _ _) =>
             apply keeps_key_bind; [solve [auto with keeps_key] | intros ?]
         | |- keeps_key _ (let _ := _ in _) => cbv zeta
         | |- keeps_key _ _ => solve [auto with keeps_key]
         end.

Lemma id_ts_value (event : gmap string string) (own : string) :
  event !! "ts" = Some own ->
  id_ts event = ret (default own (event !! "thread_ts")).
Proof.
  intros Hts. unfold id_ts, subscript. rewrite Hts.
  now destruct (event !! "thread_ts").
Qed.

Lemma handle_mention_keeps_key env (event : gmap string string) (own : string) :
  event !! "ts" = Some own ->
  keeps_key (default own (event !! "thread_ts")) (handle_mention env event).
Proof.
  intros Hts. unfold handle_mention. rewrite (id_ts_value _ _ Hts).
  keeps_key_steps.
Qed.

(** The dict of line 131 has no [context]. *)
Lemma turn_dict_context (message : string) (chat_history : list Message) :
  (<["input" := ArgText message]>
     (<["chat_history" := ArgMessages chat_history]> ∅)
   : gmap string chain_arg) !! "context" = None.
Proof.
  rewrite lookup_insert_ne by discriminate.
  rewrite lookup_insert_ne by discriminate. apply lookup_empty.
Qed.

(** Without [context] the first chain stops in its prompt, before the LLM
    is asked. *)
Lemma qa_chain_without_context env callback (d : gmap string chain_arg) :
  d !! "context" = None ->
  qa_chain env callback d = raise (KeyError "context").
Proof.
  intros Hd. unfold qa_chain, qa_prompt, subscript. rewrite Hd. reflexivity.
Qed.

Section NeverReturns.

Context {A B : Type}.

Lemma never_returns_first (m : M A) (k : A -> M B) :
  never_returns m -> never_returns (bind m k).
Proof.
  intros Hm w b w'. unfold bind. specialize (Hm w).
  destruct (m w) as [[a|e] w1]; [|discriminate]. now destruct (Hm a w1).
Qed.

Lemma never_returns_rest (m : M A) (k : A -> M B) :
  (forall a, never_returns (k a)) -> never_returns (bind m k).
Proof.
  intros Hk w b w'. unfold bind.
  destruct (m w) as [[a|e] w1]; [apply Hk | discriminate].
Qed.

End NeverReturns.

(** No turn comes back: whatever the event and the collaborators, the
    first chain is handed a dict without [context]. *)
Lemma turn_never_returns env (event : gmap string string) :
  never_returns (handle_mention env event).
Proof.
  unfold handle_mention.
  do 12 (apply never_returns_rest; intros ?). cbv zeta.
  apply never_returns_first. intros w r w'.
  rewrite qa_chain_without_context by apply turn_dict_context.
  discriminate.
Qed.

Ltac run_branch H :=
  match type of H with
  | context [match ?d !! ?k with _ => _ end] =>
      destruct (d !! k) eqn:?; cbn beta iota in H
  | context [match say_ts ?e with _ => _ end] =>
      destruct (say_ts e) eqn:?; cbn beta iota in H
  | context [match py_int ?e ?s with _ => _ end] =>
      destruct (py_int e s) eqn:?; cbn beta iota in H
  end.

(** The turn up to the chain, with the chain already known to stop. *)
Lemma handle_mention_unfolded env (event : gmap string string) :
  handle_mention env event =
  (channel <- subscript event "channel" ;;
   thread_ts <- subscript event "ts" ;;
   _text <- subscript event "text" ;;
   id_ts <- id_ts event ;;
   _ts <- say env (nl +:+ nl +:+ "Typing...") thread_ts ;;
   _cache <- subscript (environ env) "MOMENTO_CACHE" ;;
   ttl <- subscript (environ env) "MOMENTO_TTL" ;;
   _hours <- int env ttl ;;
   _index_name <- subscript (environ env) "PINECONE_INDEX" ;;
   _model <- subscript (environ env) "OPENAI_API_MODEL" ;;
   _temperature <- subscript (environ env) "OPENAI_API_TEMPERATURE" ;;
   _chat_history <- history_messages id_ts ;;
   raise (KeyError "context")).
Proof. reflexivity. Qed.

Ltac run_turn H :=
  rewrite handle_mention_unfolded in H;
  unfold id_ts, say, int, history_messages, emit, subscript, bind, ret,
    raise in H;
  cbn beta iota in H.

(** A turn that stops on the [KeyError] of [context] has posted the
    placeholder and read the transcript, and nothing else. *)
Lemma prompt_error_trace env (event : gmap string string) (w w' : World) :
  handle_mention env event w = (Raise (KeyError "context"), w') ->
  exists own,
    event !! "ts" = Some own
    /\ w' = {| trace := trace w
                        ++ [ESay (nl +:+ nl +:+ "Typing...") own;
                            EHistoryRead (default own (event !! "thread_ts"))];
               momento := momento w |}.
Proof.
  intros H. run_turn H.
  repeat run_branch H; try discriminate;
    inversion H; subst; eexists; (split; [reflexivity|]);
    cbn [trace momento default]; now rewrite <- app_assoc.
Qed.

(** C7. For an event with a [ts], the key is [thread_ts] when the event
    has one and the own [ts] otherwise; every history effect of the turn,
    however it ends, names that key, and a turn that came back has read the
    transcript of that key and appended to it. In this program no turn comes
    back ([turn_never_returns]): the turn that gets as far as the prompt
    stops there on the [KeyError] of [context], and what it has done by then
    is the placeholder post and the read of the transcript of that key. *)
Theorem conversation_key (env : Env) (event : gmap string string) (w : World)
    (own : string) :
  event !! "ts" = Some own ->
  let key := default own (event !! "thread_ts") in
  id_ts event w = (Ok key, w)
  /\ (forall T, event !! "thread_ts" = Some T -> key = T)
  /\ (event !! "thread_ts" = None -> key = own)
  /\ (exists new,
        trace (snd (handle_mention env event w)) = trace w ++ new
        /\ Forall (fun e => forall k, history_key e = Some k -> k = key) new)
  /\ (fst (handle_mention env event w) = Ok tt ->
      In (EHistoryRead key) (trace (snd (handle_mention env event w)))
      /\ exists human ai,
           momento (snd (handle_mention env event w))
           = <[key := default [] (momento w !! key) ++ [human; ai]]> (momento w))
  /\ (fst (handle_mention env event w) = Raise (KeyError "context") ->
      trace (snd (handle_mention env event w))
      = trace w ++ [ESay (nl +:+ nl +:+ "Typing...") own; EHistoryRead key]).
Proof.
  intros Hts key. subst key. repeat split.
  - now rewrite (id_ts_value _ _ Hts).
  - now intros T ->.
  - now intros ->.
  - apply (handle_mention_keeps_key env event own Hts w).
  - destruct (handle_mention env event w) as [res w'] eqn:E. cbn [fst snd] in *.
    subst res. now apply turn_never_returns in E.
  - destruct (handle_mention env event w) as [res w'] eqn:E. cbn [fst snd] in *.
    subst res. now apply turn_never_returns in E.
  - destruct (handle_mention env event w) as [res w'] eqn:E. cbn [fst snd].
    intros ->. apply prompt_error_trace in E.
    destruct E as (own' & Hts' & ->). rewrite Hts in Hts'.
    now inversion Hts'.
Qed.

Lemma conversation_key_witness :
  thread_event !! "ts" = Some "100.0"
  /\ id_ts thread_event empty_world = (Ok "90.0", empty_world)
  /\ trace (snd (handle_mention turn_env thread_event empty_world))
     = [ESay (nl +:+ nl +:+ "Typing...") "100.0"; EHistoryRead "90.0"].
Proof.
  split; [reflexivity|].
  destruct (conversation_key turn_env thread_event empty_world "100.0")
    as (Hkey & _ & _ & _ & _ & Hstop); [reflexivity|].
  split; [exact Hkey | exact (Hstop eq_refl)].
Defined.

(** C8. A request whose headers hold the retry count is answered with 200
    at once: the adapter is not run, and apart from the log line nothing is
    posted, edited, generated, read or written. *)
Theorem retry_is_acknowledged_without_effects
    (slack_handle : LambdaEvent -> M lambda_return) (event : LambdaEvent)
    (hdrs : gmap string string) (count : string) (w : World) :
  headers event = Some hdrs ->
  hdrs !! "x-slack-retry-num" = Some count ->
  handler slack_handle event w
  = (Ok (RInt 200),
     {| trace := trace w ++ [ELog "handler called"]; momento := momento w |})
  /\ Forall (fun e => is_side_effect e = false) [ELog "handler called"].
Proof.
  intros Hh Hretry. split.
  - unfold handler, bind, emit, ret. rewrite Hh. cbn. now rewrite Hretry.
  - now repeat constructor.
Qed.

Lemma retry_is_acknowledged_witness :
  handler posting_adapter retried_request empty_world
  = (Ok (RInt 200), {| trace := [ELog "handler called"]; momento := ∅ |}).
Proof.
  destruct (retry_is_acknowledged_without_effects posting_adapter
              retried_request (list_to_map [("x-slack-retry-num", "1")]) "1"
              empty_world) as [Hrun _];
    [reflexivity | reflexivity | exact Hrun].
Defined.

(** Without the header the adapter does run. *)
Example first_delivery_runs_adapter :
  handler posting_adapter {| headers := Some ∅; request := "{}" |} empty_world
  = (Ok (RResponse 200 ""),
     {| trace := [ELog "handler called"; ESay "posted" "0"]; momento := ∅ |}).
Proof. reflexivity. Qed.

(** ** The mention is stripped line by line *)

(** C10, as the program has it. [re.sub] removes every match and the dot
    stops at a line feed: on each line of the text, the span from the
    first ["<@"] of the line to the last [">"] of the line is removed, when
    that [">"] closes the ["<@"]. On a text of one line this is the span
    from the first ["<@"] to the last [">"] of the text, the user text
    between two mentions included; a text without ["<@"] is unchanged. The
    result is the input of the generation and the user entry of the
    transcript of a turn that comes back; in this program none does
    ([turn_never_returns]), the text is stripped and put in the dict the
    chain is invoked with, and the prompt stops the chain before it is
    used. *)
Theorem mention_removed_line_by_line (text : string) :
  re_sub_mention text = strip_each_line text
  /\ (on_one_line (list_ascii_of_string text) ->
      re_sub_mention text = strip_whole_text text)
  /\ (find_mention (list_ascii_of_string text) = None ->
      re_sub_mention text = text)
  /\ (forall env (event : gmap string string) w w',
        event !! "text" = Some text ->
        handle_mention env event w = (Ok tt, w') ->
        exists key chat_history,
          In (EGenerate (strip_each_line text) chat_history) (trace w')
          /\ In (EHistoryAdd key {| msg_role := Human;
                                    msg_content := PStr (strip_each_line text) |})
                (trace w')).
Proof.
  assert (Hlines : re_sub_mention text = strip_each_line text).
  { unfold re_sub_mention, strip_each_line. now rewrite sub_from_by_line. }
  split; [exact Hlines|]. split; [|split].
  - intros Hl. unfold re_sub_mention, strip_whole_text.
    now rewrite sub_from_one_line.
  - intros Hnone. unfold re_sub_mention.
    rewrite sub_from_no_mention by assumption.
    apply string_of_list_ascii_of_string.
  - intros env event w w' Htext Hrun. now apply turn_never_returns in Hrun.
Qed.

(** Two mentions on one line: what the user wrote between them goes too. *)
Example text_between_mentions_removed :
  re_sub_mention "hi <@U1> please ask <@U2> now" = "hi  now".
Proof. reflexivity. Qed.

(** C10 as stated fails on a text of two lines with a mention on each: both
    mentions go and the text between them stays, which no removal of one
    span produces. *)
Lemma two_lines_two_spans :
  re_sub_mention two_line_text = " a" +:+ nl +:+ " b"
  /\ strip_whole_text two_line_text = " b"
  /\ re_sub_mention two_line_text <> strip_whole_text two_line_text
  /\ forall p q : nat,
       firstn p (list_ascii_of_string two_line_text)
       ++ skipn q (list_ascii_of_string two_line_text)
       <> list_ascii_of_string (re_sub_mention two_line_text).
Proof.
  split; [reflexivity|]. split; [reflexivity|]. split; [discriminate|].
  intros p q.
  do 16 (destruct p as [|p];
         [do 16 (destruct q as [|q]; [vm_compute; discriminate|]);
          vm_compute; discriminate|]).
  vm_compute. discriminate.
Qed.

(** * Further properties of the handler *)

Lemma counters_ok_init (ch t : string) : counters_ok (__init__ ch t).
Proof.
  unfold counters_ok, __init__, CHAT_UPDATE_INTERVAL_SEC.
  cbn [update_count interval]. split; [lia|]. split; [now left|].
  now exists 0%nat.
Qed.

Lemma counters_ok_fire cls self cb :
  counters_ok self -> counters_ok (self_after (fire cls self cb)).
Proof.
  intros Hok. destruct cb as [e|r]; cbn [fire]; [|exact Hok].
  unfold on_llm_new_token.
  destruct (gate_open _ _ _); [|exact Hok].
  destruct (te_edit_raises e); [exact Hok|].
  destruct Hok as (Hcount & Hlow & k & Hk).
  match goal with
  | |- context [if backoff_due ?s then _ else _] =>
      pose proof (backoff_due_iff s) as Hdue; destruct (backoff_due s)
  end; cbn [update_count interval set_update_count set_last_send_time
              set_message set_interval] in Hdue |- *;
    unfold counters_ok;
    cbn [self_after update_count interval set_update_count
           set_last_send_time set_message set_interval].
  - assert (Hgt : 10 * interval self < update_count self + 1)
      by now apply Hdue.
    split; [lia|]. split; [right; lia|].
    exists (S k). rewrite Nat2Z.inj_succ, Z.pow_succ_r by lia. lia.
  - assert (Hle : ~ 10 * interval self < update_count self + 1).
    { intros H. apply Hdue in H. discriminate. }
    split; [lia|]. split; [lia|]. now exists k.
Qed.

Lemma counters_ok_dispatch cls self cbs :
  counters_ok self -> counters_ok (fst (dispatch cls self cbs)).
Proof.
  revert self. induction cbs as [|cb cbs IH]; intros self Hok; [exact Hok|].
  rewrite dispatch_cons. cbn [fst]. now apply IH, counters_ok_fire.
Qed.

(** X1. However many callbacks a handler has seen, ten times [interval] is
    at least [update_count], [interval] is 1 or less than a fifth of
    [update_count], and [interval] is a power of two. *)
Theorem interval_tracks_update_count (cls : ClassAttrs) (ch t : string)
    (cbs : list callback) :
  let h := fst (dispatch cls (__init__ ch t) cbs) in
  0 <= update_count h <= 10 * interval h
  /\ (interval h = 1 \/ 5 * interval h < update_count h)
  /\ exists k : nat, interval h = 2 ^ Z.of_nat k.
Proof. apply counters_ok_dispatch, counters_ok_init. Qed.

Lemma on_token_count cls self token now r :
  update_count (self_after (on_llm_new_token cls self token now r))
  = update_count self
    + Z.of_nat (match issued (on_llm_new_token cls self token now r) with
                | [] => 0
                | _ :: _ => if r then 0 else 1
                end).
Proof.
  unfold on_llm_new_token.
  destruct (gate_open _ _ _); [|cbn; lia].
  destruct r; [cbn; lia|].
  match goal with
  | |- context [if backoff_due ?s then _ else _] => destruct (backoff_due s)
  end; cbn; lia.
Qed.

Lemma tokens_count cls self tokens :
  update_count (fst (dispatch cls self (map OnToken tokens)))
  = update_count self + Z.of_nat (returned_calls cls self tokens).
Proof.
  revert self. induction tokens as [|e tokens IH]; intros self.
  - simpl. lia.
  - change (map OnToken (e :: tokens)) with (OnToken e :: map OnToken tokens).
    rewrite dispatch_cons. cbn [fst returned_calls]. rewrite IH.
    cbn [fire]. rewrite on_token_count. lia.
Qed.

Lemma returned_calls_le_calls cls self tokens :
  (returned_calls cls self tokens
   <= length (snd (dispatch cls self (map OnToken tokens))))%nat.
Proof.
  revert self. induction tokens as [|e tokens IH]; intros self; [simpl; lia|].
  change (map OnToken (e :: tokens)) with (OnToken e :: map OnToken tokens).
  rewrite dispatch_cons. cbn [snd returned_calls]. rewrite length_app.
  specialize (IH (self_after (fire cls self (OnToken e)))).
  destruct (issued (fire cls self (OnToken e))); cbn [length].
  - lia.
  - destruct (te_edit_raises e); lia.
Qed.

Lemma returned_calls_all cls self tokens :
  Forall (fun e => te_edit_raises e = false) tokens ->
  returned_calls cls self tokens
  = length (snd (dispatch cls self (map OnToken tokens))).
Proof.
  intros Hall. revert self.
  induction Hall as [|e tokens He _ IH]; intros self; [reflexivity|].
  change (map OnToken (e :: tokens)) with (OnToken e :: map OnToken tokens).
  rewrite dispatch_cons. cbn [snd returned_calls]. rewrite length_app, IH, He.
  cbn [fire].
  destruct (on_token_issued cls self (te_token e) (te_now e) (te_edit_raises e))
    as [-> | ->]; reflexivity.
Qed.

Lemma tokens_calls_length cls self tokens :
  (length (snd (dispatch cls self (map OnToken tokens))) <= length tokens)%nat.
Proof.
  revert self. induction tokens as [|e tokens IH]; intros self; [simpl; lia|].
  change (map OnToken (e :: tokens)) with (OnToken e :: map OnToken tokens).
  rewrite dispatch_cons. cbn [snd fire]. rewrite length_app.
  specialize (IH (self_after (on_llm_new_token cls self (te_token e) (te_now e)
                                (te_edit_raises e)))).
  destruct (on_token_issued cls self (te_token e) (te_now e) (te_edit_raises e))
    as [-> | ->]; cbn [length]; lia.
Qed.

(** X2. At the end of a stream [update_count] is the number of token
    callbacks that made an edit call which did not raise. When no edit call
    raises it is the number of edit calls the token callbacks made. It is
    at most the number of tokens, and the session makes at most one edit
    call per token and one more. *)
Theorem update_count_counts_publishes (cls : ClassAttrs) (ch t : string)
    (tokens : list TokenEvent) (end_raises : bool) :
  let h := fst (dispatch cls (__init__ ch t) (session tokens end_raises)) in
  update_count h = Z.of_nat (returned_calls cls (__init__ ch t) tokens)
  /\ (Forall (fun e => te_edit_raises e = false) tokens ->
      update_count h
      = Z.of_nat (length (snd (dispatch cls (__init__ ch t)
                                 (map OnToken tokens)))))
  /\ update_count h <= Z.of_nat (length tokens)
  /\ (length (snd (dispatch cls (__init__ ch t) (session tokens end_raises)))
      <= length tokens + 1)%nat.
Proof.
  intros h. subst h. unfold session. rewrite dispatch_app. cbn [fst snd].
  change (fst (dispatch cls ?s [OnEnd end_raises])) with s.
  rewrite tokens_count. cbn [update_count __init__].
  pose proof (returned_calls_le_calls cls (__init__ ch t) tokens).
  pose proof (tokens_calls_length cls (__init__ ch t) tokens).
  split; [lia|]. split; [|split].
  - intros Hall. now rewrite returned_calls_all.
  - lia.
  - rewrite length_app. cbn. lia.
Qed.

(** A stream of three tokens a second and a half apart, the second edit
    call raising: two calls return, [update_count] ends at 2. *)
Example one_raise_in_three ch t :
  let tokens := [ {| te_token := "a"; te_now := 3 # 2; te_edit_raises := false |};
                  {| te_token := "b"; te_now := 3; te_edit_raises := true |};
                  {| te_token := "c"; te_now := 9 # 2; te_edit_raises := false |} ] in
  update_count (fst (dispatch (class_body 0) (__init__ ch t)
                       (session tokens false))) = 2
  /\ length (snd (dispatch (class_body 0) (__init__ ch t)
                    (map OnToken tokens))) = 3%nat.
Proof. cbv zeta. split; reflexivity. Qed.

Lemma on_token_last_send_time cls self token now r :
  last_send_time (self_after (on_llm_new_token cls self token now r))
  = if published (on_llm_new_token cls self token now r)
    then Some now else last_send_time self.
Proof.
  rewrite published_iff. unfold on_llm_new_token.
  change (gate_open cls (set_message self (get_message cls self +:+ token)) now)
    with (gate_open cls self now).
  destruct (gate_open cls self now); [|reflexivity].
  destruct r; [reflexivity|]. cbn [andb negb].
  match goal with
  | |- context [if backoff_due ?s then _ else _] => destruct (backoff_due s)
  end; reflexivity.
Qed.

Lemma published_gap cls self token now r :
  0 < interval self ->
  published (on_llm_new_token cls self token now r) = true ->
  (get_last_send_time cls self + inject_Z (interval self) < now)%Q
  /\ (get_last_send_time cls self + 1 < now)%Q.
Proof.
  intros Hpos Hpub. rewrite published_iff in Hpub.
  apply andb_true_iff in Hpub as [Hgate _].
  apply gate_open_iff in Hgate.
  assert (H1 : (1 <= inject_Z (interval self))%Q).
  { change 1%Q with (inject_Z 1). rewrite <- Zle_Qle. lia. }
  split; lra.
Qed.

Lemma publish_times_spaced cls self tokens :
  0 < interval self ->
  Forall (fun b => (get_last_send_time cls self + 1 < b)%Q)
    (publish_times cls self tokens)
  /\ StronglySorted (fun a b => (a + 1 < b)%Q) (publish_times cls self tokens).
Proof.
  revert self. induction tokens as [|e tokens IH]; intros self Hpos.
  - split; constructor.
  - cbn [publish_times fire].
    pose proof (on_token_interval cls self (te_token e) (te_now e)
                  (te_edit_raises e) Hpos) as [_ Hpos'].
    pose proof (on_token_last_send_time cls self (te_token e) (te_now e)
                  (te_edit_raises e)) as Hlast.
    destruct (IH _ Hpos') as [Hafter Hsorted].
    destruct (published _) eqn:Hpub.
    + destruct (published_gap cls self _ _ _ Hpos Hpub) as [_ Hgap].
      unfold get_last_send_time in Hafter at 1. rewrite Hlast in Hafter.
      cbn [default] in Hafter. change (default ?d (Some ?x)) with x in Hafter.
      split.
      * constructor; [exact Hgap|].
        eapply Forall_impl; [exact Hafter|]. intros b Hb. unfold id in Hb. lra.
      * constructor; assumption.
    + unfold get_last_send_time in Hafter at 1. rewrite Hlast in Hafter.
      fold (get_last_send_time cls self) in Hafter. now split.
Qed.

(** X3. The moments at which the displayed message was replaced during a
    stream lie more than one second apart, and the first lies more than one
    second after the class body ran, whatever the clock readings of the
    other tokens and whichever other edit calls raised. *)
Theorem returned_publishes_over_a_second_apart (import_time : Q)
    (ch t : string) (tokens : list TokenEvent) :
  StronglySorted (fun a b => (a + 1 < b)%Q)
    (import_time
     :: publish_times (class_body import_time) (__init__ ch t) tokens).
Proof.
  destruct (publish_times_spaced (class_body import_time) (__init__ ch t) tokens)
    as [Hfirst Hsorted]; [reflexivity|].
  constructor; assumption.
Qed.

(** X4. An edit call that raised is tried again by the very next token
    whose clock reading is not earlier: that callback issues a call with
    both tokens in its text, without waiting for [interval] to pass. *)
Theorem raised_publish_is_retried (cls : ClassAttrs) (self : Handler)
    (token : string) (now : Q) (r : bool) (token' : string) (now' : Q)
    (r' : bool) :
  let o := on_llm_new_token cls self token now r in
  ended o = Raised ->
  (now <= now')%Q ->
  issued (on_llm_new_token cls (self_after o) token' now' r')
  = [{| cu_channel := channel self; cu_ts := ts self;
        cu_text := ((get_message cls self +:+ token) +:+ token')
                   +:+ typing_marker |}].
Proof.
  intros o Hraised Hclock. subst o.
  rewrite on_token_issued_rule, on_token_message.
  destruct (on_token_target cls self token now r) as [-> ->].
  assert (Hgate : gate_open cls self now = true
                  /\ self_after (on_llm_new_token cls self token now r)
                     = set_message self (get_message cls self +:+ token)).
  { revert Hraised. unfold on_llm_new_token.
    change (gate_open cls (set_message self (get_message cls self +:+ token)) now)
      with (gate_open cls self now).
    destruct (gate_open cls self now); [|discriminate].
    destruct r; [now split | discriminate]. }
  destruct Hgate as [Hgate ->]. apply gate_open_iff in Hgate.
  change (interval (set_message self ?m)) with (interval self).
  change (get_last_send_time cls (set_message self ?m))
    with (get_last_send_time cls self).
  destruct (Qlt_le_dec _ _) as [_ | Hle]; [reflexivity|]. lra.
Qed.

Lemma raised_publish_is_retried_witness :
  issued (on_llm_new_token (class_body 0)
            (self_after (on_llm_new_token (class_body 0) (__init__ "C1" "200.1")
                           "Hi" 5 true))
            " there" 5 false)
  = [{| cu_channel := "C1"; cu_ts := "200.1";
        cu_text := "Hi there" +:+ typing_marker |}].
Proof.
  apply (raised_publish_is_retried (class_body 0) (__init__ "C1" "200.1")
           "Hi" 5 true " there" 5 false); [reflexivity | discriminate].
Defined.

Lemma quiet_tokens_calls (import_time : Q) (self : Handler)
    (tokens : list TokenEvent) :
  last_send_time self = None -> interval self = 1 ->
  Forall (fun e => (te_now e <= import_time + 1)%Q) tokens ->
  snd (dispatch (class_body import_time) self (map OnToken tokens)) = [].
Proof.
  revert self. induction tokens as [|e tokens IH]; intros self Hlast Hint Hq;
    [reflexivity|].
  inversion Hq as [|? ? He Hrest]; subst.
  change (map OnToken (e :: tokens)) with (OnToken e :: map OnToken tokens).
  rewrite dispatch_cons. cbn [snd fire].
  assert (Hclosed : gate_open (class_body import_time) self (te_now e) = false).
  { destruct (gate_open _ _ _) eqn:Hg; [|reflexivity].
    apply gate_open_iff in Hg. unfold get_last_send_time in Hg.
    rewrite Hlast, Hint in Hg.
    change (inject_Z 1) with 1%Q in Hg.
    change (default ?d None) with d in Hg.
    cbn [class_body cls_last_send_time] in Hg. lra. }
  unfold on_llm_new_token at 1 2.
  change (gate_open (class_body import_time)
            (set_message self ?m) (te_now e))
    with (gate_open (class_body import_time) self (te_now e)).
  rewrite Hclosed. cbn [issued self_after app]. now apply IH.
Qed.

(** X5. A stream whose tokens all arrive within one second of the moment
    the class body ran makes a single edit call, the final one with the
    whole text. *)
Theorem quick_stream_makes_one_call (import_time : Q) (ch t : string)
    (tokens : list TokenEvent) (end_raises : bool) :
  Forall (fun e => (te_now e <= import_time + 1)%Q) tokens ->
  snd (dispatch (class_body import_time) (__init__ ch t)
         (session tokens end_raises))
  = [{| cu_channel := ch; cu_ts := t; cu_text := full_text tokens |}].
Proof.
  intros Hq. rewrite session_calls.
  now rewrite (quiet_tokens_calls import_time (__init__ ch t) tokens).
Qed.

Lemma quick_stream_witness :
  snd (dispatch (class_body 0) (__init__ "C1" "200.1")
         (session [mkTokenEvent "Hel" (1 # 2) false;
                   mkTokenEvent "lo" (3 # 5) false] false))
  = [{| cu_channel := "C1"; cu_ts := "200.1"; cu_text := "Hello" |}].
Proof.
  apply (quick_stream_makes_one_call 0 "C1" "200.1"
           [mkTokenEvent "Hel" (1 # 2) false; mkTokenEvent "lo" (3 # 5) false]
           false).
  repeat constructor; discriminate.
Defined.

(** * Further properties of the mention pattern *)

Lemma sub_from_sublist (k : nat) (s : list ascii) : sublist (sub_from k s) s.
Proof.
  revert k. induction s as [|c r IH]; intros k; [constructor|].
  destruct k as [|k]; cbn [sub_from].
  - destruct (match_at (c :: r)).
    + apply sublist_cons, IH.
    + apply sublist_skip, IH.
  - apply sublist_cons, IH.
Qed.

Lemma lines_one_line (l : list ascii) : on_one_line l -> lines l = [l].
Proof.
  induction 1 as [|c r Hc Hr IH]; [reflexivity|].
  simpl. now rewrite Hc, IH.
Qed.

Lemma lines_app (l rest : list ascii) :
  on_one_line l -> lines (l ++ ascii_of_nat 10 :: rest) = l :: lines rest.
Proof.
  induction 1 as [|c r Hc Hr IH]; [reflexivity|].
  simpl. now rewrite Hc, IH.
Qed.

Lemma lines_unlines (ls : list (list ascii)) :
  ls <> [] -> Forall on_one_line ls -> lines (unlines ls) = ls.
Proof.
  induction ls as [|l ls IH]; intros Hne Hall; [congruence|].
  inversion Hall as [|? ? Hl Hls]; subst. destruct ls as [|l' ls].
  - simpl. now apply lines_one_line.
  - rewrite unlines_cons by discriminate.
    rewrite lines_app by assumption. now rewrite IH.
Qed.

Lemma lines_on_one_line (s : list ascii) : Forall on_one_line (lines s).
Proof.
  induction s as [|c r IH]; [repeat constructor|].
  simpl. destruct (is_nl c) eqn:Hc.
  - constructor; [constructor | exact IH].
  - destruct (lines r) as [|l ls]; [repeat constructor; exact Hc|].
    inversion IH; subst. constructor; [now constructor | assumption].
Qed.

Lemma strip_span_on_one_line (l : list ascii) :
  on_one_line l -> on_one_line (strip_span l).
Proof.
  intros Hl. unfold strip_span.
  destruct (find_mention l) as [p|]; [|exact Hl].
  destruct (last_gt l) as [q|]; [|exact Hl].
  destruct (p + 2 <=? q)%nat; [|exact Hl].
  apply Forall_app. split; [now apply Forall_take | now apply Forall_drop].
Qed.

Lemma last_gt_app_none (a b : list ascii) :
  last_gt b = None -> last_gt (a ++ b) = last_gt a.
Proof.
  intros Hb. induction a as [|c a IH]; [exact Hb|].
  simpl. now rewrite IH.
Qed.

Lemma last_gt_lt (a : list ascii) (q : nat) :
  last_gt a = Some q -> (q < length a)%nat.
Proof.
  revert q. induction a as [|c a IH]; intros q; simpl; [discriminate|].
  destruct (last_gt a) as [m|].
  - intros [= <-]. specialize (IH m eq_refl). lia.
  - destruct (is_gt c); [|discriminate]. intros [= <-]. lia.
Qed.

Lemma find_mention_take (l : list ascii) (p : nat) :
  find_mention l = Some p -> find_mention (firstn p l) = None.
Proof.
  revert p. induction l as [|c1 r IH]; intros p; [discriminate|].
  destruct r as [|c2 r']; [discriminate|]. rewrite find_mention_cons.
  destruct (Ascii.eqb c1 "<" && Ascii.eqb c2 "@") eqn:Hhead.
  - now intros [= <-].
  - destruct (find_mention (c2 :: r')) as [p'|] eqn:Hp'; [|discriminate].
    intros [= <-]. specialize (IH p' eq_refl).
    destruct p' as [|p']; [reflexivity|].
    change (firstn (S (S p')) (c1 :: c2 :: r'))
      with (c1 :: c2 :: firstn p' r').
    rewrite find_mention_cons, Hhead.
    change (c2 :: firstn p' r') with (firstn (S p') (c2 :: r')).
    now rewrite IH.
Qed.

Lemma find_mention_app_lower (a b : list ascii) (p : nat) :
  find_mention a = None -> find_mention (a ++ b) = Some p ->
  (length a <= p + 1)%nat.
Proof.
  revert p. induction a as [|c1 r IH]; intros p Ha Hab; [simpl; lia|].
  destruct r as [|c2 r']; [simpl; lia|].
  rewrite find_mention_cons in Ha.
  change ((c1 :: c2 :: r') ++ b) with (c1 :: c2 :: (r' ++ b)) in Hab.
  rewrite find_mention_cons in Hab.
  destruct (Ascii.eqb c1 "<" && Ascii.eqb c2 "@"); [discriminate|].
  change (c2 :: (r' ++ b)) with ((c2 :: r') ++ b) in Hab.
  destruct (find_mention (c2 :: r')) as [|] eqn:Hr; [discriminate|].
  destruct (find_mention ((c2 :: r') ++ b)) as [p'|] eqn:Hp'; [|discriminate].
  injection Hab as <-. specialize (IH p' eq_refl eq_refl).
  change (length (c1 :: c2 :: r')) with (S (length (c2 :: r'))). lia.
Qed.

Lemma strip_span_idempotent (l : list ascii) :
  strip_span (strip_span l) = strip_span l.
Proof.
  unfold strip_span at 2 3.
  destruct (find_mention l) as [p|] eqn:Hp;
    [|unfold strip_span; now rewrite Hp].
  destruct (last_gt l) as [q|] eqn:Hq;
    [|unfold strip_span; now rewrite Hp, Hq].
  destruct (p + 2 <=? q)%nat eqn:Hpq;
    [|unfold strip_span; now rewrite Hp, Hq, Hpq].
  pose proof (find_mention_take _ _ Hp) as Hpre.
  pose proof (last_gt_skipn _ _ Hq) as Hpost.
  unfold strip_span.
  destruct (find_mention (firstn p l ++ skipn (S q) l)) as [p'|] eqn:Hp';
    [|reflexivity].
  rewrite (last_gt_app_none _ _ Hpost).
  destruct (last_gt (firstn p l)) as [q'|] eqn:Hq'; [|reflexivity].
  apply last_gt_lt in Hq'.
  pose proof (find_mention_app_lower _ _ _ Hpre Hp') as Hlow.
  replace (p' + 2 <=? q')%nat with false; [reflexivity|].
  symmetry. apply Nat.leb_gt. lia.
Qed.

Lemma sub_from_lines (s : list ascii) :
  lines (sub_from 0 s) = map strip_span (lines s).
Proof.
  rewrite sub_from_by_line. apply lines_unlines.
  - intros Hmap. apply map_eq_nil in Hmap. now apply lines_nonempty in Hmap.
  - apply Forall_map. eapply Forall_impl; [apply lines_on_one_line|].
    intros l Hl. now apply strip_span_on_one_line.
Qed.

Lemma sub_from_idempotent (s : list ascii) :
  sub_from 0 (sub_from 0 s) = sub_from 0 s.
Proof.
  rewrite (sub_from_by_line (sub_from 0 s)), sub_from_lines.
  rewrite (sub_from_by_line s), map_map. f_equal.
  apply map_ext. intros l. apply strip_span_idempotent.
Qed.

Lemma list_ascii_length (s : string) :
  length (list_ascii_of_string s) = String.length s.
Proof. induction s as [|c s IH]; [reflexivity | simpl; now rewrite IH]. Qed.

(** X6. Stripping a stripped text changes nothing: no mention that the
    pattern matches is left, or made, by the removal. *)
Theorem strip_twice_is_strip_once (text : string) :
  re_sub_mention (re_sub_mention text) = re_sub_mention text.
Proof.
  unfold re_sub_mention. rewrite list_ascii_of_string_of_list_ascii.
  now rewrite sub_from_idempotent.
Qed.

(** X7. Stripping only deletes characters: the result is the text with some
    characters left out, in the same order, so it is never longer; and no
    line feed is deleted, so the text has as many lines as before. *)
Theorem strip_only_deletes (text : string) :
  sublist (list_ascii_of_string (re_sub_mention text))
    (list_ascii_of_string text)
  /\ (String.length (re_sub_mention text) <= String.length text)%nat
  /\ length (lines (list_ascii_of_string (re_sub_mention text)))
     = length (lines (list_ascii_of_string text)).
Proof.
  unfold re_sub_mention. rewrite list_ascii_of_string_of_list_ascii.
  split; [apply sub_from_sublist|]. split.
  - rewrite <- !list_ascii_length, list_ascii_of_string_of_list_ascii.
    apply sublist_length, sub_from_sublist.
  - now rewrite sub_from_lines, length_map.
Qed.

(** * Further properties of the turn *)

Section Emits.

Context {A B : Type} (P : effect -> Prop).

Lemma emits_ret (a : A) : emits P (ret a).
Proof. intros w. exists []. split; [now rewrite app_nil_r | constructor]. Qed.

Lemma emits_raise (e : exn) : emits P (@raise A e).
Proof. intros w. exists []. split; [now rewrite app_nil_r | constructor]. Qed.

(** The rest of a body may rely on what [m] returns. *)
Lemma emits_bind_val (R : A -> Prop) (m : M A) (k : A -> M B) :
  (forall w a w', m w = (Ok a, w') -> R a) ->
  emits P m -> (forall a, R a -> emits P (k a)) -> emits P (bind m k).
Proof.
  intros Hval Hm Hk w. unfold bind. destruct (Hm w) as (new1 & Ht1 & Hf1).
  destruct (m w) as [[a|e] w1] eqn:E; cbn [snd] in *.
  - destruct (Hk a (Hval _ _ _ E) w1) as (new2 & Ht2 & Hf2).
    exists (new1 ++ new2). split.
    + now rewrite Ht2, Ht1, app_assoc.
    + apply Forall_app. now split.
  - exists new1. now split.
Qed.

Lemma emits_bind (m : M A) (k : A -> M B) :
  emits P m -> (forall a, emits P (k a)) -> emits P (bind m k).
Proof.
  intros Hm Hk. apply (emits_bind_val (fun _ => True)); auto.
Qed.

Lemma emits_ret_bind (a : A) (k : A -> M B) :
  emits P (k a) -> emits P (bind (ret a) k).
Proof. intros H. exact H. Qed.

End Emits.

Lemma emits_emit_all (P : effect -> Prop) (es : list effect) :
  Forall P es -> emits P (emit_all es).
Proof. intros Hes w. now exists es. Qed.

Lemma emits_emit (P : effect -> Prop) (e : effect) : P e -> emits P (emit e).
Proof. intros He w. exists [e]. split; [reflexivity | now repeat constructor]. Qed.

Lemma emits_subscript {V : Type} (P : effect -> Prop) (d : gmap string V)
    (name : string) :
  emits P (subscript d name).
Proof.
  unfold subscript. destruct (d !! name); [apply emits_ret | apply emits_raise].
Qed.

Lemma emits_int (P : effect -> Prop) env s : emits P (int env s).
Proof.
  unfold int. destruct (py_int env s); [apply emits_ret | apply emits_raise].
Qed.

Lemma emits_history_messages (P : effect -> Prop) key :
  P (EHistoryRead key) -> emits P (history_messages key).
Proof.
  intros HP w. exists [EHistoryRead key]. split; [reflexivity|].
  now repeat constructor.
Qed.

Lemma emits_history_add (P : effect -> Prop) key m :
  P (EHistoryAdd key m) -> emits P (history_add key m).
Proof.
  intros HP w. exists [EHistoryAdd key m]. split; [reflexivity|].
  now repeat constructor.
Qed.

Lemma emits_rephrase (P : effect -> Prop) input : emits P (rephrase input).
Proof. apply emits_raise. Qed.

Lemma emits_qa_prompt (P : effect -> Prop) (d : gmap string chain_arg) :
  emits P (qa_prompt d).
Proof.
  unfold qa_prompt.
  apply emits_bind; [apply emits_subscript | intros _].
  apply emits_bind; [apply emits_subscript | intros chat_history].
  apply emits_bind; [apply emits_subscript | intros input].
  destruct input, chat_history; first [apply emits_ret | apply emits_raise].
Qed.

Lemma emits_qa_chain (P : effect -> Prop) env callback
    (d : gmap string chain_arg) :
  (forall input chat_history, P (EGenerate input chat_history)) ->
  (forall cbs c,
     In c (snd (dispatch (class_body (imported_at env)) callback cbs)) ->
     P (EChatUpdate c)) ->
  emits P (qa_chain env callback d).
Proof.
  intros Hgen Hcalls.
  assert (Hall : forall cbs,
            Forall P (map EChatUpdate
                        (snd (dispatch (class_body (imported_at env))
                                callback cbs)))).
  { intros cbs. apply Forall_forall. intros e He.
    apply list_elem_of_In, in_map_iff in He as (c & <- & Hc). eauto. }
  unfold qa_chain. apply emits_bind; [apply emits_qa_prompt|].
  intros [input chat_history].
  apply emits_bind; [now apply emits_emit|].
  intros _. destruct (g_end (qa_llm env input chat_history)).
  - apply emits_bind; [apply emits_emit_all, Hall | intros _; apply emits_ret].
  - apply emits_bind; [apply emits_emit_all, Hall | intros _; apply emits_raise].
Qed.

Lemma fire_target cls self cb :
  channel (self_after (fire cls self cb)) = channel self
  /\ ts (self_after (fire cls self cb)) = ts self
  /\ Forall (fun c => cu_channel c = channel self /\ cu_ts c = ts self)
       (issued (fire cls self cb)).
Proof.
  destruct cb as [e|r]; cbn [fire].
  - destruct (on_token_target cls self (te_token e) (te_now e)
                (te_edit_raises e)) as [Hc Ht].
    repeat split; try assumption.
    destruct (on_token_issued cls self (te_token e) (te_now e)
                (te_edit_raises e)) as [-> | ->]; now repeat constructor.
  - now repeat constructor.
Qed.

(** Whatever callbacks fire, every edit call names the channel and the
    message the handler was made for. *)
Lemma dispatch_targets cls self cbs :
  Forall (fun c => cu_channel c = channel self /\ cu_ts c = ts self)
    (snd (dispatch cls self cbs)).
Proof.
  revert self. induction cbs as [|cb cbs IH]; intros self; [constructor|].
  rewrite dispatch_cons. cbn [snd].
  destruct (fire_target cls self cb) as (Hc & Ht & Hissued).
  apply Forall_app. split; [exact Hissued|].
  specialize (IH (self_after (fire cls self cb))).
  rewrite Hc, Ht in IH. exact IH.
Qed.

Lemma subscript_some {V : Type} (d : gmap string V) (name : string) (v : V) :
  d !! name = Some v -> subscript d name = ret v.
Proof. intros H. unfold subscript. now rewrite H. Qed.

Lemma say_value env text thread_ts w a w' :
  say env text thread_ts w = (Ok a, w') -> say_ts env = Some a.
Proof.
  unfold say, bind, emit, ret, raise. destruct (say_ts env); [|discriminate].
  now intros [= <- _].
Qed.

Lemma say_world env text thread_ts w :
  snd (say env text thread_ts w)
  = {| trace := trace w ++ [ESay text thread_ts]; momento := momento w |}.
Proof. unfold say, bind, emit, ret, raise. now destruct (say_ts env). Qed.

Lemma starts_with_say {B : Type} env text thread_ts (P : effect -> Prop)
    (k : string -> M B) :
  (forall a, say_ts env = Some a -> emits P (k a)) ->
  starts_with (ESay text thread_ts) P (bind (say env text thread_ts) k).
Proof.
  intros Hk w. unfold bind. pose proof (say_world env text thread_ts w) as Hw.
  destruct (say env text thread_ts w) as [[a|e] w1] eqn:E; cbn [snd] in *.
  - destruct (Hk a (say_value _ _ _ _ _ _ E) w1) as (rest & Ht & Hf).
    exists rest. split; [|exact Hf]. rewrite Ht, Hw. cbn [trace].
    now rewrite <- app_assoc.
  - exists []. split; [|constructor]. now rewrite Hw.
Qed.

Create HintDb emits.

#[local] Hint Resolve emits_ret emits_raise emits_subscript emits_int : emits.

(** X8. When the event has a channel, a [ts] and a text, the first thing a
    turn does, however it ends, is to post the placeholder, as a reply to
    the event's own [ts] even when the event belongs to a thread; it posts
    nothing else, and every edit call it makes goes to the event's channel
    and to the message it has just posted. *)
Theorem placeholder_first_then_only_its_edits (env : Env)
    (event : gmap string string) (channel own text : string) :
  event !! "channel" = Some channel ->
  event !! "ts" = Some own ->
  event !! "text" = Some text ->
  starts_with (ESay (nl +:+ nl +:+ "Typing...") own)
    (edits_placeholder env channel) (handle_mention env event).
Proof.
  intros Hch Hts Htext. unfold handle_mention.
  rewrite (id_ts_value _ _ Hts), (subscript_some _ _ _ Hch),
    (subscript_some _ _ _ Hts), (subscript_some _ _ _ Htext).
  change (starts_with (ESay (nl +:+ nl +:+ "Typing...") own)
            (edits_placeholder env channel)
            (bind (say env (nl +:+ nl +:+ "Typing...") own) ?k))
    with (starts_with (ESay (nl +:+ nl +:+ "Typing...") own)
            (edits_placeholder env channel)
            (bind (say env (nl +:+ nl +:+ "Typing...") own) k)).
  apply starts_with_say. intros ph Hph.
  do 6 (apply emits_bind; [solve [auto with emits] | intros ?]).
  apply emits_bind; [now apply emits_history_messages | intros chat_history].
  cbv zeta. apply emits_bind.
  { apply emits_qa_chain; [intros; exact I|]. intros cbs c Hc.
    pose proof (dispatch_targets (class_body (imported_at env))
                  (__init__ channel ph) cbs) as Hall.
    rewrite Forall_forall in Hall.
    apply list_elem_of_In, Hall in Hc as [Hc1 Hc2]. cbn in Hc1, Hc2.
    split; [exact Hc1 | now rewrite Hc2]. }
  intros answer.
  apply emits_bind; [apply emits_rephrase | intros ai_message].
  apply emits_bind; [now apply emits_history_add | intros _].
  now apply emits_history_add.
Qed.

Lemma placeholder_first_witness :
  exists rest,
    trace (snd (handle_mention turn_env thread_event empty_world))
    = trace empty_world ++ ESay (nl +:+ nl +:+ "Typing...") "100.0" :: rest
    /\ Forall (edits_placeholder turn_env "C1") rest.
Proof.
  exact (placeholder_first_then_only_its_edits turn_env thread_event
           "C1" "100.0" "<@U1> hi" eq_refl eq_refl eq_refl empty_world).
Defined.

Section Cache.

Context {A B : Type}.

Lemma pure_ret (a : A) : pure_on_cache (ret a).
Proof. now intros w. Qed.

Lemma pure_raise (e : exn) : pure_on_cache (@raise A e).
Proof. now intros w. Qed.

Lemma pure_bind (m : M A) (k : A -> M B) :
  pure_on_cache m -> (forall a, pure_on_cache (k a)) ->
  pure_on_cache (bind m k).
Proof.
  intros Hm Hk w. unfold bind. specialize (Hm w).
  destruct (m w) as [[a|e] w1]; cbn [snd] in *; [|exact Hm].
  now rewrite Hk.
Qed.

Lemma fails_clean_bind (m : M A) (k : A -> M B) :
  pure_on_cache m -> (forall a, fails_clean (k a)) -> fails_clean (bind m k).
Proof.
  intros Hm Hk w e w'. unfold bind. specialize (Hm w).
  destruct (m w) as [[a|e1] w1]; cbn [snd] in *.
  - intros Hrun. now rewrite (Hk a _ _ _ Hrun).
  - now intros [= _ <-].
Qed.

Lemma fails_clean_ret_bind (a : A) (k : A -> M B) :
  fails_clean (k a) -> fails_clean (bind (ret a) k).
Proof. intros H. exact H. Qed.

Lemma touches_only_pure key (m : M A) : pure_on_cache m -> touches_only key m.
Proof. intros Hm w k _. now rewrite Hm. Qed.

Lemma touches_only_bind key (m : M A) (k : A -> M B) :
  touches_only key m -> (forall a, touches_only key (k a)) ->
  touches_only key (bind m k).
Proof.
  intros Hm Hk w j Hj. unfold bind. specialize (Hm w j Hj).
  destruct (m w) as [[a|e] w1]; cbn [snd] in *; [|exact Hm].
  now rewrite (Hk a w1 j Hj).
Qed.

Lemma touches_only_ret_bind key (a : A) (k : A -> M B) :
  touches_only key (k a) -> touches_only key (bind (ret a) k).
Proof. intros H. exact H. Qed.

End Cache.

Lemma pure_emit (e : effect) : pure_on_cache (emit e).
Proof. now intros w. Qed.

Lemma pure_emit_all (es : list effect) : pure_on_cache (emit_all es).
Proof. now intros w. Qed.

Lemma pure_subscript {V : Type} (d : gmap string V) (name : string) :
  pure_on_cache (subscript d name).
Proof.
  unfold subscript. destruct (d !! name); [apply pure_ret | apply pure_raise].
Qed.

Lemma pure_say env text thread_ts : pure_on_cache (say env text thread_ts).
Proof. intros w. now rewrite say_world. Qed.

Lemma pure_int env s : pure_on_cache (int env s).
Proof.
  unfold int. destruct (py_int env s); [apply pure_ret | apply pure_raise].
Qed.

Lemma pure_history_messages key : pure_on_cache (history_messages key).
Proof. now intros w. Qed.

Lemma pure_qa_prompt (d : gmap string chain_arg) : pure_on_cache (qa_prompt d).
Proof.
  unfold qa_prompt.
  apply pure_bind; [apply pure_subscript | intros _].
  apply pure_bind; [apply pure_subscript | intros chat_history].
  apply pure_bind; [apply pure_subscript | intros input].
  destruct input, chat_history; first [apply pure_ret | apply pure_raise].
Qed.

Lemma pure_qa_chain env callback (d : gmap string chain_arg) :
  pure_on_cache (qa_chain env callback d).
Proof.
  unfold qa_chain. apply pure_bind; [apply pure_qa_prompt|].
  intros [input chat_history].
  apply pure_bind; [apply pure_emit | intros _].
  destruct (g_end (qa_llm env input chat_history));
    (apply pure_bind; [apply pure_emit_all | intros _]);
    [apply pure_ret | apply pure_raise].
Qed.

Lemma pure_rephrase input : pure_on_cache (rephrase input).
Proof. apply pure_raise. Qed.

Lemma pure_id_ts (event : gmap string string) : pure_on_cache (id_ts event).
Proof.
  unfold id_ts. apply pure_bind; [apply pure_subscript | intros own].
  destruct (event !! "thread_ts"); apply pure_ret.
Qed.

Lemma touches_only_history_add key m : touches_only key (history_add key m).
Proof.
  intros w k Hk. cbn [history_add snd momento].
  now rewrite lookup_insert_ne by congruence.
Qed.

Lemma history_adds_never_raise key m1 m2 :
  fails_clean (bind (history_add key m1) (fun _ => history_add key m2)).
Proof. intros w e w'. unfold bind, history_add. discriminate. Qed.

Create HintDb cache.

#[local] Hint Resolve pure_ret pure_raise pure_emit pure_emit_all
  pure_subscript pure_say pure_int pure_history_messages pure_qa_chain
  pure_rephrase pure_id_ts : cache.

(** X9. A turn that raises, wherever it raises, has written nothing to the
    cache: the two entries are appended only after everything else has
    come back. *)
Theorem failed_turn_writes_no_history (env : Env)
    (event : gmap string string) (w w' : World) (e : exn) :
  handle_mention env event w = (Raise e, w') ->
  momento w' = momento w.
Proof.
  revert w e w'. change (fails_clean (handle_mention env event)).
  unfold handle_mention.
  repeat (apply fails_clean_bind; [solve [auto with cache] | intros ?]).
  apply history_adds_never_raise.
Qed.

Lemma failed_turn_witness :
  momento (snd (handle_mention turn_env turn_event empty_world))
  = momento empty_world.
Proof.
  apply (failed_turn_writes_no_history turn_env turn_event
           empty_world _ (KeyError "context")).
  vm_compute. reflexivity.
Defined.

(** X10. Whatever a turn does, the transcript of every key other than the
    turn's own is as it was before. *)
Theorem other_transcripts_untouched (env : Env) (event : gmap string string)
    (w : World) (own k : string) :
  event !! "ts" = Some own ->
  k <> default own (event !! "thread_ts") ->
  momento (snd (handle_mention env event w)) !! k = momento w !! k.
Proof.
  intros Hts Hk. revert w k Hk.
  change (touches_only (default own (event !! "thread_ts"))
            (handle_mention env event)).
  unfold handle_mention. rewrite (id_ts_value _ _ Hts).
  repeat lazymatch goal with
         | |- touches_only _ (bind (ret _) _) => apply touches_only_ret_bind
         | |- touches_only _ (bind (history_add _ _) _) =>
             apply touches_only_bind;
               [apply touches_only_history_add | intros ?]
         | |- touches_only _ (bind _ _) =>
             apply touches_only_bind;
               [solve [apply touches_only_pure; auto with cache] | intros ?]
         | |- touches_only _ (let _ := _ in _) => cbv zeta
         | |- touches_only _ (history_add _ _) =>
             apply touches_only_history_add
         end.
Qed.

Lemma other_transcripts_witness :
  momento (snd (handle_mention turn_env thread_event empty_world)) !! "100.0"
  = momento empty_world !! "100.0".
Proof.
  apply (other_transcripts_untouched turn_env thread_event empty_world
           "100.0" "100.0"); [reflexivity | vm_compute; discriminate].
Defined.

(** X11. An event that lacks its channel, its [ts] or its text stops the
    turn with a [KeyError] on that key before anything is posted, read or
    generated: the world is as it was. *)
Theorem missing_event_key_stops_turn (env : Env) (event : gmap string string)
    (w : World) :
  event !! "channel" = None \/ event !! "ts" = None \/ event !! "text" = None ->
  exists k,
    event !! k = None /\ handle_mention env event w = (Raise (KeyError k), w).
Proof.
  intros Hmissing. unfold handle_mention, bind, subscript, ret, raise.
  destruct (event !! "channel") eqn:Hch; [|now exists "channel"].
  destruct (event !! "ts") eqn:Hts; [|now exists "ts"].
  destruct (event !! "text") eqn:Htext; [|now exists "text"].
  now destruct Hmissing as [H | [H | H]].
Qed.

Lemma missing_event_key_witness :
  exists k,
    event_without_text !! k = None
    /\ handle_mention turn_env event_without_text empty_world
       = (Raise (KeyError k), empty_world).
Proof.
  apply (missing_event_key_stops_turn turn_env event_without_text empty_world).
  right. right. reflexivity.
Defined.

(** X12. When a turn stops on a [KeyError] or a [ValueError] (a key the
    event lacks, a variable the environment lacks, a TTL that is no
    number, the variable the prompt lacks), the cache is as it was and
    nothing has happened at all, or exactly the placeholder has been
    posted, or, when the prompt lacked [context], the placeholder has been
    posted and the transcript read. In no case is the placeholder edited:
    it keeps showing the typing text. *)
Theorem config_error_leaves_placeholder (env : Env)
    (event : gmap string string) (w w' : World) (e : exn) :
  handle_mention env event w = (Raise e, w') ->
  (forall who, e <> ExternalError who) ->
  w' = w
  \/ exists own,
       event !! "ts" = Some own
       /\ (w' = {| trace := trace w ++ [ESay (nl +:+ nl +:+ "Typing...") own];
                   momento := momento w |}
           \/ e = KeyError "context"
              /\ w' = {| trace := trace w
                                  ++ [ESay (nl +:+ nl +:+ "Typing...") own;
                                      EHistoryRead
                                        (default own (event !! "thread_ts"))];
                         momento := momento w |}).
Proof.
  intros H Hnot. run_turn H.
  repeat run_branch H; try discriminate;
    inversion H; subst;
    try (now left);
    try (right; eexists; split; [reflexivity|]; left; reflexivity);
    try (right; eexists; split; [reflexivity|]; right; split; [reflexivity|];
         cbn [trace momento]; now rewrite <- app_assoc);
    try (now exfalso; eapply Hnot).
Qed.

Lemma config_error_witness :
  snd (handle_mention env_without_index turn_event empty_world) = empty_world
  \/ exists own,
       turn_event !! "ts" = Some own
       /\ (snd (handle_mention env_without_index turn_event empty_world)
           = {| trace := trace empty_world
                         ++ [ESay (nl +:+ nl +:+ "Typing...") own];
                momento := momento empty_world |}
           \/ KeyError "PINECONE_INDEX" = KeyError "context"
              /\ snd (handle_mention env_without_index turn_event empty_world)
                 = {| trace := trace empty_world
                               ++ [ESay (nl +:+ nl +:+ "Typing...") own;
                                   EHistoryRead
                                     (default own
                                        (turn_event !! "thread_ts"))];
                      momento := momento empty_world |}).
Proof.
  apply (config_error_leaves_placeholder env_without_index turn_event
           empty_world _ (KeyError "PINECONE_INDEX")).
  - vm_compute. reflexivity.
  - discriminate.
Defined.



(** ** Further properties of the entry point *)

(** X17. A request that has headers, none of them under the exact key
    [x-slack-retry-num], is handed to the adapter unchanged, after the log
    line: what the entry point returns and leaves behind is what the
    adapter does. The key is compared as written, so a header spelled with
    capitals does not count as a retry. *)
Theorem handler_hands_over_without_retry_header
    (slack_handle : LambdaEvent -> M lambda_return) (event : LambdaEvent)
    (hdrs : gmap string string) (w : World) :
  headers event = Some hdrs ->
  hdrs !! "x-slack-retry-num" = None ->
  handler slack_handle event w
  = slack_handle event
      {| trace := trace w ++ [ELog "handler called"]; momento := momento w |}.
Proof.
  intros Hh Hnone. unfold handler, bind, emit, ret.
  rewrite Hh. cbn beta iota. now rewrite Hnone.
Qed.

Lemma handler_hands_over_witness :
  handler posting_adapter capitalised_retry_request empty_world
  = posting_adapter capitalised_retry_request
      {| trace := trace empty_world ++ [ELog "handler called"];
         momento := momento empty_world |}.
Proof.
  apply (handler_hands_over_without_retry_header posting_adapter
           capitalised_retry_request
           (list_to_map [("X-Slack-Retry-Num", "1")]) empty_world);
    reflexivity.
Defined.

(** A request without headers stops on the subscript, after the log line
    and before the adapter. *)
Example handler_without_headers
    (slack_handle : LambdaEvent -> M lambda_return) (w : World) :
  handler slack_handle {| headers := None; request := "{}" |} w
  = (Raise (KeyError "headers"),
     {| trace := trace w ++ [ELog "handler called"]; momento := momento w |}).
Proof. reflexivity. Qed.
